(** * squangle: the query formatter of [squangle/mysql_client/Query.cpp]

    A shallow embedding of [QueryArgument], [Query::render],
    [Query::renderMultiQuery] and [MultiQuery::renderQuery], with the
    helpers of the anonymous namespace, followed by the properties of the
    rendering engine.

    Conventions.
    - [folly::fbstring] and [folly::StringPiece] are byte strings: [string].
    - A C++ exception is a value of [exception]; a function that may throw
      returns [result A].  A function that appends to [folly::fbstring* s]
      takes the old contents and returns the new contents.
    - [int64_t] is [Z]; [size_t] offsets and counters are [nat] (they are
      bounded by the sizes of the template and of the argument vectors).
    - What the translation unit takes from elsewhere ([double] and its
      conversion to text, [MYSQL] and [mysql_real_escape_string],
      [QueryArgument::typeName]) is a field of a class, [Externals] or
      [TypeNames], over which the development is parametric. *)

From Stdlib Require Import String Ascii List ZArith Lia Bool Arith.
From Stdlib Require Import DecimalString.
From Stdlib Require Import Sorted Permutation OrderedTypeEx.
Import ListNotations.

Open Scope list_scope.
Open Scope string_scope.

Set Warnings "-register-all".

(** ** Exceptions *)

(** [parseError] throws [std::invalid_argument] with the text
    "Parse error at offset {}: {}, query: {}"; the three fields are kept
    apart and [what] puts them together.  [InvalidArgument] is any other
    [std::invalid_argument]; [BadGet] is [boost::bad_get], thrown by
    [boost::get] on a variant that holds another alternative. *)
Inductive exception : Type :=
| ParseError (s : string) (offset : nat) (message : string)
| InvalidArgument (message : string)
| BadGet.

Definition size_to_string (n : nat) : string :=
  NilZero.string_of_uint (Nat.to_uint n).

Definition what (e : exception) : string :=
  match e with
  | ParseError s offset message =>
      "Parse error at offset " ++ size_to_string offset ++ ": " ++ message
        ++ ", query: " ++ s
  | InvalidArgument message => message
  | BadGet => "boost::bad_get: failed value get using boost::get"
  end.

Inductive result (A : Type) : Type :=
| Ok (a : A)
| Throw (e : exception).

Arguments Ok {A} a.
Arguments Throw {A} e.

Definition bind {A B : Type} (m : result A) (k : A -> result B) : result B :=
  match m with
  | Ok a => k a
  | Throw e => Throw e
  end.

Notation "x <- m ;; k" := (bind m (fun x => k))
  (at level 61, m at next level, right associativity).

Definition parseError {A : Type} (s : string) (offset : nat)
  (message : string) : result A :=
  Throw (ParseError s offset message).

Definition formatStringParseError {A : Type} (query_text : string)
  (offset : nat) (format_specifier : ascii) (value_type : string) : result A :=
  parseError query_text offset
    ("invalid value type " ++ value_type ++ " for format string %"
       ++ String format_specifier "").

(** ** Byte strings *)

Definition dquote : ascii := "034"%char.

Definition push_back (s : string) (c : ascii) : string := s ++ String c "".

Fixpoint contains (chars : string) (c : ascii) : bool :=
  match chars with
  | "" => false
  | String x chars' => Ascii.eqb x c || contains chars' c
  end.

(** [StringPiece::find_first_of]: [None] is [npos]. *)
Fixpoint find_first_of (s : string) (chars : string) : option nat :=
  match s with
  | "" => None
  | String c s' =>
      if contains chars c then Some 0
      else option_map S (find_first_of s' chars)
  end.

(** [boost::replace_all]: every occurrence of [search], found from left to
    right without overlap, is replaced by [format]; replaced text is not
    searched again.  The finder of boost reports no match for an empty
    [search].  [skip] counts the bytes of a match still to be dropped. *)
Fixpoint replace_all_from (search format : string) (skip : nat)
  (input : string) : string :=
  match input with
  | "" => ""
  | String c input' =>
      match skip with
      | S skip' => replace_all_from search format skip' input'
      | 0 =>
          if prefix search input
          then format ++ replace_all_from search format
                           (String.length search - 1) input'
          else String c (replace_all_from search format 0 input')
      end
  end.

Definition replace_all (input search format : string) : string :=
  match search with
  | "" => input
  | _ => replace_all_from search format 0 input
  end.

(** The argument of [find_first_of] in [render]: [;], ['], the double
    quote and the backtick. *)
Definition dangerous : string := ";'" ++ String dquote "`".

(** [occurs pat s]: [pat] is a substring of [s]. *)
Fixpoint occurs (pat s : string) : bool :=
  prefix pat s ||
  match s with
  | "" => false
  | String _ s' => occurs pat s'
  end.

(** [folly::to<fbstring>] on [int64_t] and on [bool] (folly prints a bool
    as the integer it converts to). *)
Definition to_fbstring_int (i : Z) : string :=
  NilZero.string_of_int (Z.to_int i).

Definition to_fbstring_bool (b : bool) : string :=
  if b then "1" else "0".

(** [covered search target s]: wherever [target] stands in [s], [search]
    stands there too. *)
Definition covered (search target s : string) : Prop :=
  forall u v, s = u ++ v -> prefix target v = true -> prefix search v = true.

(** ** What the translation unit takes from elsewhere *)

(** The C++ [double] with [folly::to<fbstring>(double)], and the connection
    handle with the escape routine of the client library. *)
Class Externals : Type := {
  double : Type;
  to_fbstring_double : double -> string;
  MYSQL : Type;
  mysql_real_escape_string : MYSQL -> string -> string
}.

Section Squangle.

Context {ext : Externals}.

(** ** QueryArgument and Query *)

(** The alternatives of the [boost::variant] behind [value_]. *)
Inductive QueryArgument : Type :=
| ArgString (v : string)
| ArgDouble (v : double)
| ArgBool (v : bool)
| ArgInt (v : Z)
| ArgNull
| ArgQuery (v : Query)
| ArgList (v : list QueryArgument)
| ArgPairs (v : list (string * QueryArgument))
with Query : Type :=
| mkQuery (query_text_ : string) (unsafe_query_ : bool)
    (params_ : list QueryArgument).

Definition ArgPair : Type := (string * QueryArgument)%type.

Definition query_text_ (q : Query) : string :=
  match q with mkQuery t _ _ => t end.
Definition unsafe_query_ (q : Query) : bool :=
  match q with mkQuery _ u _ => u end.
Definition params_ (q : Query) : list QueryArgument :=
  match q with mkQuery _ _ p => p end.

(** [QueryArgument::typeName], declared in Query.h: the name of the type
    held by the variant, as the C++ runtime spells it. *)
Class TypeNames : Type := typeName : QueryArgument -> string.

Context {names : TypeNames}.

Definition isString (d : QueryArgument) : bool :=
  match d with ArgString _ => true | _ => false end.
Definition isQuery (d : QueryArgument) : bool :=
  match d with ArgQuery _ => true | _ => false end.
Definition isPairList (d : QueryArgument) : bool :=
  match d with ArgPairs _ => true | _ => false end.
Definition isBool (d : QueryArgument) : bool :=
  match d with ArgBool _ => true | _ => false end.
Definition isNull (d : QueryArgument) : bool :=
  match d with ArgNull => true | _ => false end.
Definition isList (d : QueryArgument) : bool :=
  match d with ArgList _ => true | _ => false end.
Definition isDouble (d : QueryArgument) : bool :=
  match d with ArgDouble _ => true | _ => false end.
Definition isInt (d : QueryArgument) : bool :=
  match d with ArgInt _ => true | _ => false end.

(** [FbStringConverter] applied by [QueryArgument::asString]. *)
Definition asString (d : QueryArgument) : result string :=
  match d with
  | ArgDouble operand => Ok (to_fbstring_double operand)
  | ArgBool operand => Ok (to_fbstring_bool operand)
  | ArgInt operand => Ok (to_fbstring_int operand)
  | ArgString operand => Ok operand
  | _ =>
      Throw (InvalidArgument
        "Only allowed type conversions are Int, Double, Bool and String")
  end.

Definition getString (d : QueryArgument) : result string :=
  match d with ArgString v => Ok v | _ => Throw BadGet end.

Definition getList (d : QueryArgument) : result (list QueryArgument) :=
  match d with ArgList v => Ok v | _ => Throw BadGet end.

Definition getPairs (d : QueryArgument) : result (list ArgPair) :=
  match d with ArgPairs v => Ok v | _ => Throw BadGet end.

(** ** Helpers for encoding and escaping *)

Definition appendComment (s : string) (d : QueryArgument) : result string :=
  str <- asString d ;;
  let str := replace_all str "/*" " / * " in
  let str := replace_all str "*/" " * / " in
  Ok (s ++ str).

(** The loop of [appendColumnTableName] over the bytes of the name. *)
Fixpoint appendColumnTableName_chars (s : string) (name : string) : string :=
  match name with
  | "" => s
  | String c name' =>
      let s := if Ascii.eqb c "`" then push_back s "`" else s in
      appendColumnTableName_chars (push_back s c) name'
  end.

Definition appendColumnTableName (s : string) (d : QueryArgument)
  : result string :=
  if isString d then
    name <- getString d ;;
    let s := push_back s "`" in
    let s := appendColumnTableName_chars s name in
    Ok (push_back s "`")
  else
    str <- asString d ;;
    Ok (s ++ str).

(** [connection] is [None] for a null pointer. *)
Definition appendEscapedString (dest : string) (value : string)
  (connection : option MYSQL) : string :=
  match connection with
  | None => dest ++ value
  | Some conn => dest ++ mysql_real_escape_string conn value
  end.

(** ** Query *)

(** The constructor [Query::Query]. *)
Definition Query_new (query_text : string) (params : list QueryArgument)
  : Query :=
  mkQuery query_text false params.

(** [Query::append] *)
Definition Query_append (q query2 : Query) : Query :=
  mkQuery (query_text_ q ++ query_text_ query2) (unsafe_query_ q)
    (params_ q ++ params_ query2)%list.

Definition appendValue (q : Query) (s : string) (offset : nat) (type : ascii)
  (d : QueryArgument) (connection : option MYSQL) : result string :=
  let querySp := query_text_ q in
  if isString d then
    if negb (Ascii.eqb type "s") && negb (Ascii.eqb type "v") then
      formatStringParseError querySp offset type "string"
    else
      value <- asString d ;;
      let s := push_back s dquote in
      let s := appendEscapedString s value connection in
      Ok (push_back s dquote)
  else if isInt d then
    if negb (Ascii.eqb type "d") && negb (Ascii.eqb type "v") then
      formatStringParseError querySp offset type "int"
    else
      str <- asString d ;; Ok (s ++ str)
  else if isDouble d then
    if negb (Ascii.eqb type "f") && negb (Ascii.eqb type "v") then
      formatStringParseError querySp offset type "double"
    else
      str <- asString d ;; Ok (s ++ str)
  else if isNull d then
    Ok (s ++ "NULL")
  else
    formatStringParseError querySp offset type (typeName d).

(** [sep[0]] of a C string. *)
Definition first_char (sep : string) : ascii :=
  match sep with
  | "" => "000"%char
  | String c _ => c
  end.

(** The loop of [appendValueClauses] over the pairs. *)
Fixpoint appendValueClauses_loop (q : Query) (idx : nat) (sep : string)
  (connection : option MYSQL) (pairs : list ArgPair)
  (ret : string) (first_param : bool) : result string :=
  match pairs with
  | [] => Ok ret
  | key_value :: pairs' =>
      let ret := if negb first_param then ret ++ sep else ret in
      ret <- appendColumnTableName ret (ArgString (fst key_value)) ;;
      ret <- (if isNull (snd key_value)
                 && negb (Ascii.eqb (first_char sep) ",")
              then Ok (ret ++ " IS NULL")
              else appendValue q (ret ++ " = ") idx "v" (snd key_value)
                     connection) ;;
      appendValueClauses_loop q idx sep connection pairs' ret false
  end.

Definition appendValueClauses (q : Query) (ret : string) (idx : nat)
  (sep : string) (param : QueryArgument) (connection : option MYSQL)
  : result string :=
  let querySp := query_text_ q in
  if negb (isPairList param) then
    parseError querySp idx
      ("object expected for %Lx but received " ++ typeName param)
  else
    pairs <- getPairs param ;;
    appendValueClauses_loop q idx sep connection pairs ret true.

(** The two loops of the [%V] branch of [render].  The inner loop walks the
    columns of one row and returns [ret], [col_idx] and [row_len]. *)
Fixpoint render_V_cols (q : Query) (idx : nat) (conn : option MYSQL)
  (first_row : bool) (cols : list QueryArgument)
  (ret : string) (col_idx row_len : nat) (first_in_row : bool)
  : result (string * nat * nat) :=
  match cols with
  | [] => Ok (ret, col_idx, row_len)
  | col :: cols' =>
      let ret := if negb first_in_row then ret ++ ", " else ret in
      ret <- appendValue q ret idx "v" col conn ;;
      let col_idx := S col_idx in
      let row_len := if first_row then S row_len else row_len in
      render_V_cols q idx conn first_row cols' ret col_idx row_len false
  end.

Fixpoint render_V_rows (q : Query) (idx : nat) (conn : option MYSQL)
  (rows : list QueryArgument)
  (ret : string) (row_len : nat) (first_row : bool) : result string :=
  let querySp := query_text_ q in
  match rows with
  | [] => Ok ret
  | row :: rows' =>
      let ret := if negb first_row then ret ++ ", " else ret in
      let ret := ret ++ "(" in
      cols <- getList row ;;
      st <- render_V_cols q idx conn first_row cols ret 0 row_len true ;;
      let '(ret, col_idx, row_len) := st in
      let ret := ret ++ ")" in
      if first_row then
        render_V_rows q idx conn rows' ret row_len false
      else if negb (Nat.eqb col_idx row_len) then
        parseError querySp idx
          "not all rows provided for %V formatter are the same size"
      else
        render_V_rows q idx conn rows' ret row_len first_row
  end.

(** The loop of the plain-list branch of [%L]. *)
Fixpoint render_L_list (q : Query) (idx : nat) (conn : option MYSQL)
  (type : ascii) (vals : list QueryArgument)
  (ret : string) (first_param : bool) : result string :=
  match vals with
  | [] => Ok ret
  | val :: vals' =>
      let ret := if negb first_param then ret ++ ", " else ret in
      ret <- (if Ascii.eqb type "C" then appendColumnTableName ret val
              else appendValue q ret idx type val conn) ;;
      render_L_list q idx conn type vals' ret false
  end.

(** The state of the walk over the template when the [for] loop of
    [render] is left. *)
Record walk : Type := mkWalk {
  walk_ret : string;
  walk_current_param : list QueryArgument;
  walk_after_percent : bool;
  walk_idx : nat
}.

(** The [for] loop of [Query::render].  [rest] is the template from byte
    [idx] on; [current_param] is what the iterator has not passed yet.
    [advance(querySp, &idx, 1)] in the [%=] and [%L] branches reads the byte
    after [c]: it throws when [rest'] is empty ([s.size() <= *offset + 1]),
    and otherwise moves [idx] to that byte, which is what it returns. *)
Fixpoint render_loop (q : Query) (conn : option MYSQL) (rest : string)
  (idx : nat) (current_param : list QueryArgument) (after_percent : bool)
  (ret : string) : result walk :=
  let querySp := query_text_ q in
  match rest with
  | "" => Ok (mkWalk ret current_param after_percent idx)
  | String c rest' =>
      if negb after_percent then
        if negb (Ascii.eqb c "%") then
          render_loop q conn rest' (S idx) current_param false
            (push_back ret c)
        else
          render_loop q conn rest' (S idx) current_param true ret
      else if Ascii.eqb c "%" then
        render_loop q conn rest' (S idx) current_param false
          (push_back ret "%")
      else
        match current_param with
        | [] => parseError querySp idx "too few parameters for query"
        | param :: current_param =>
            if Ascii.eqb c "d" || Ascii.eqb c "s" || Ascii.eqb c "f" then
              ret <- appendValue q ret idx c param conn ;;
              render_loop q conn rest' (S idx) current_param false ret
            else if Ascii.eqb c "K" then
              ret <- appendComment (ret ++ "/*") param ;;
              render_loop q conn rest' (S idx) current_param false
                (ret ++ "*/")
            else if Ascii.eqb c "T" || Ascii.eqb c "C" then
              ret <- appendColumnTableName ret param ;;
              render_loop q conn rest' (S idx) current_param false ret
            else if Ascii.eqb c "=" then
              match rest' with
              | "" => parseError querySp idx "unexpected end of string"
              | String type rest'' =>
                  let idx := S idx in
                  if negb (Ascii.eqb type "d") && negb (Ascii.eqb type "s")
                     && negb (Ascii.eqb type "f") then
                    parseError querySp idx "expected %=d, %=c, or %=s"
                  else
                    ret <- (if isNull param then Ok (ret ++ " IS NULL")
                            else appendValue q (ret ++ " = ") idx type param
                                   conn) ;;
                    render_loop q conn rest'' (S idx) current_param false ret
              end
            else if Ascii.eqb c "V" then
              if isQuery param then
                parseError querySp idx "%V doesn't allow subquery"
              else
                rows <- getList param ;;
                ret <- render_V_rows q idx conn rows ret 0 true ;;
                render_loop q conn rest' (S idx) current_param false ret
            else if Ascii.eqb c "L" then
              match rest' with
              | "" => parseError querySp idx "unexpected end of string"
              | String type rest'' =>
                  let idx := S idx in
                  ret <-
                    (if Ascii.eqb type "O" || Ascii.eqb type "A" then
                       let sep :=
                         if Ascii.eqb type "O" then " OR " else " AND " in
                       ret <- appendValueClauses q (ret ++ "(") idx sep param
                                conn ;;
                       Ok (ret ++ ")")
                     else if negb (isList param) then
                       parseError querySp idx
                         "expected array for %L formatter"
                     else
                       vals <- getList param ;;
                       render_L_list q idx conn type vals ret true) ;;
                  render_loop q conn rest'' (S idx) current_param false ret
              end
            else if Ascii.eqb c "U" || Ascii.eqb c "W" then
              ret <- (if Ascii.eqb c "W"
                      then appendValueClauses q ret idx " AND " param conn
                      else appendValueClauses q ret idx ", " param conn) ;;
              render_loop q conn rest' (S idx) current_param false ret
            else if Ascii.eqb c "Q" then
              str <- asString param ;;
              render_loop q conn rest' (S idx) current_param false
                (ret ++ str)
            else
              parseError querySp idx "unknown % code"
        end
  end.

(** [Query::render(MYSQL* conn, const std::vector<QueryArgument>& params)] *)
Definition render_with (q : Query) (conn : option MYSQL)
  (params : list QueryArgument) : result string :=
  let querySp := query_text_ q in
  if unsafe_query_ q then Ok querySp
  else
    match find_first_of querySp dangerous with
    | Some offset =>
        parseError querySp offset "Saw dangerous characters in SQL query"
    | None =>
        w <- render_loop q conn querySp 0 params false "" ;;
        if walk_after_percent w then
          parseError querySp (walk_idx w)
            "string ended with unfinished % code"
        else
          match walk_current_param w with
          | _ :: _ =>
              parseError querySp 0 "too many parameters specified for query"
          | [] => Ok (walk_ret w)
          end
    end.

(** [Query::render(MYSQL* conn)] *)
Definition render (q : Query) (conn : option MYSQL) : result string :=
  render_with q conn (params_ q).

Definition renderInsecure (q : Query) : result string :=
  render_with q None (params_ q).

Definition renderInsecure_with (q : Query) (params : list QueryArgument)
  : result string :=
  render_with q None params.

(** The second loop of [Query::renderMultiQuery]. *)
Fixpoint renderMultiQuery_loop (connection : option MYSQL)
  (queries : list Query) (ret : string) : result string :=
  match queries with
  | [] => Ok ret
  | query :: queries' =>
      let ret := if negb (String.eqb ret "") then ret ++ ";" else ret in
      r <- render query connection ;;
      renderMultiQuery_loop connection queries' (ret ++ r)
  end.

Definition renderMultiQuery (connection : option MYSQL)
  (queries : list Query) : result string :=
  renderMultiQuery_loop connection queries "".

(** ** MultiQuery *)

Record MultiQuery : Type := mkMultiQuery {
  queries_ : list Query;
  rendered_multi_query_ : string
}.

(** Modelled from the spec: [Query::isUnsafe] and [Query::getQueryFormat]
    are declared in Query.h, which is not part of the sources; the batch
    asks whether the statement is unsafe and takes its text. *)
Definition isUnsafe (q : Query) : bool := unsafe_query_ q.
Definition getQueryFormat (q : Query) : string := query_text_ q.

(** [MultiQuery::renderQuery]: the text returned and the object after the
    call. *)
Definition renderQuery (mq : MultiQuery) (conn : option MYSQL)
  : result (string * MultiQuery) :=
  match queries_ mq with
  | [q0] =>
      if isUnsafe q0 then Ok (getQueryFormat q0, mq)
      else
        r <- renderMultiQuery conn (queries_ mq) ;;
        Ok (r, mkMultiQuery (queries_ mq) r)
  | _ =>
      r <- renderMultiQuery conn (queries_ mq) ;;
      Ok (r, mkMultiQuery (queries_ mq) r)
  end.

(** ** The texts the format codes stand for

    The functions below say, in the words of the description of the format
    codes, what a code puts into the output; the theorems compare them with
    what [render] does. *)

(** [l] joined by [sep]. *)
Fixpoint join (sep : string) (l : list string) : string :=
  match l with
  | [] => ""
  | x :: l' =>
      match l' with
      | [] => x
      | _ :: _ => x ++ sep ++ join sep l'
      end
  end.

(** Every element of [l] with [sep] before it. *)
Fixpoint sep_each (sep : string) (l : list string) : string :=
  match l with
  | [] => ""
  | x :: l' => sep ++ x ++ sep_each sep l'
  end.

(** What a loop with a first-element flag has appended after [l]: the
    separator stands before every element but the first of the loop. *)
Definition joined (first : bool) (sep : string) (l : list string) : string :=
  if first then join sep l else sep_each sep l.

(** Every backtick of [name] doubled. *)
Fixpoint double_backticks (name : string) : string :=
  match name with
  | "" => ""
  | String c name' =>
      if Ascii.eqb c "`" then String "`" (String "`" (double_backticks name'))
      else String c (double_backticks name')
  end.

Definition quote_identifier (name : string) : string :=
  "`" ++ double_backticks name ++ "`".

(** The Escaper: the routine of the connection, or the bytes as they are
    when there is no connection. *)
Definition escape (conn : option MYSQL) (value : string) : string :=
  match conn with
  | None => value
  | Some handle => mysql_real_escape_string handle value
  end.

Definition quote_string (conn : option MYSQL) (value : string) : string :=
  String dquote (escape conn value ++ String dquote "").

(** The kinds of value that [appendValue] takes under the wildcard ['v'],
    and the text of each. *)
Definition wildcard_ok (d : QueryArgument) : bool :=
  isString d || isInt d || isDouble d || isNull d.

(** The kinds of value for which [asString] throws. *)
Definition no_display_string (d : QueryArgument) : bool :=
  isNull d || isQuery d || isList d || isPairList d.

Definition value_text (conn : option MYSQL) (d : QueryArgument) : string :=
  match d with
  | ArgString v => quote_string conn v
  | ArgInt v => to_fbstring_int v
  | ArgDouble v => to_fbstring_double v
  | ArgNull => "NULL"
  | _ => ""
  end.

Definition row_text (conn : option MYSQL) (row : list QueryArgument)
  : string :=
  "(" ++ join ", " (map (value_text conn) row) ++ ")".

Definition rows_text (conn : option MYSQL)
  (rows : list (list QueryArgument)) : string :=
  join ", " (map (row_text conn) rows).

(** Every row has as many columns as the first one. *)
Definition same_width (rows : list (list QueryArgument)) : bool :=
  match rows with
  | [] => true
  | row0 :: rows' =>
      forallb (fun row => Nat.eqb (List.length row) (List.length row0)) rows'
  end.

(** A pair of a SET clause and a pair of a WHERE clause. *)
Definition set_pair_text (conn : option MYSQL) (kv : ArgPair) : string :=
  quote_identifier (fst kv) ++ " = " ++ value_text conn (snd kv).

Definition where_pair_text (conn : option MYSQL) (kv : ArgPair) : string :=
  if isNull (snd kv) then quote_identifier (fst kv) ++ " IS NULL"
  else quote_identifier (fst kv) ++ " = " ++ value_text conn (snd kv).

(** A pair as [appendValueClauses] writes it with the separator [sep]. *)
Definition clause_pair_text (sep : string) (conn : option MYSQL)
  (kv : ArgPair) : string :=
  quote_identifier (fst kv) ++
  (if isNull (snd kv) && negb (Ascii.eqb (first_char sep) ",")
   then " IS NULL"
   else " = " ++ value_text conn (snd kv)).

(** The text of [appendComment] for the display string [str]. *)
Definition comment_body (str : string) : string :=
  replace_all (replace_all str "/*" " / * ") "*/" " * / ".

(** [emits q conn c param text]: wherever the walk over the template of [q]
    meets the code [c] after a [%] with [param] as the next argument, it
    appends [text] to the output, passes [param] and goes on after [c]. *)
Definition emits (q : Query) (conn : option MYSQL) (c : ascii)
  (param : QueryArgument) (text : string) : Prop :=
  forall rest idx current_param ret,
    render_loop q conn (String c rest) idx (param :: current_param) true ret
    = render_loop q conn rest (S idx) current_param false (ret ++ text).

(** [rejects q conn c param e]: wherever the walk meets the code [c] after
    a [%] with [param] as the next argument, [render] throws [e idx], where
    [idx] is the offset of [c]. *)
Definition rejects (q : Query) (conn : option MYSQL) (c : ascii)
  (param : QueryArgument) (e : nat -> exception) : Prop :=
  forall rest idx current_param ret,
    render_loop q conn (String c rest) idx (param :: current_param) true ret
    = Throw (e idx).

(** [rs] without the empty texts at its head. *)
Fixpoint skip_empty (rs : list string) : list string :=
  match rs with
  | [] => []
  | r :: rs' => if String.eqb r "" then skip_empty rs' else rs
  end.

(** [w] with another list of arguments left. *)
Definition with_params (w : walk) (l : list QueryArgument) : walk :=
  mkWalk (walk_ret w) l (walk_after_percent w) (walk_idx w).

(** [results conn queries rs]: the statements of [queries] render, in
    order, to the texts [rs]. *)
Definition results (conn : option MYSQL) (queries : list Query)
  (rs : list string) : Prop :=
  Forall2 (fun query r => render query conn = Ok r) queries rs.

(** The messages of [render], by the name of the failure. *)
Definition DangerousCharacter (querySp : string) (offset : nat) : exception :=
  ParseError querySp offset "Saw dangerous characters in SQL query".
Definition TooFewParameters (querySp : string) (offset : nat) : exception :=
  ParseError querySp offset "too few parameters for query".
Definition TooManyParameters (querySp : string) : exception :=
  ParseError querySp 0 "too many parameters specified for query".
Definition UnknownSpecifier (querySp : string) (offset : nat) : exception :=
  ParseError querySp offset "unknown % code".
Definition UnterminatedSpecifier (querySp : string) (offset : nat)
  : exception :=
  ParseError querySp offset "string ended with unfinished % code".
Definition RowLengthMismatch (querySp : string) (offset : nat) : exception :=
  ParseError querySp offset
    "not all rows provided for %V formatter are the same size".
Definition SpecifierTypeMismatch (querySp : string) (offset : nat)
  (format_specifier : ascii) (value_type : string) : exception :=
  ParseError querySp offset
    ("invalid value type " ++ value_type ++ " for format string %"
       ++ String format_specifier "").
Definition UnsupportedConversion : exception :=
  InvalidArgument
    "Only allowed type conversions are Int, Double, Bool and String".

(** ** The rest of the interface

    The pair builder of [QueryArgument], and what the statements about the
    codes of two bytes, about unknown codes and about the number of codes
    in a template are written with. *)

(** [QueryArgument::QueryArgument()]: an empty list of pairs. *)
Definition QueryArgument_pairs : QueryArgument := ArgPairs [].

(** [QueryArgument::QueryArgument(folly::fbstring param1, QueryArgument
    param2)]: the empty list of pairs with one pair put at its end. *)
Definition QueryArgument_pair (param1 : string) (param2 : QueryArgument)
  : QueryArgument :=
  ArgPairs ([] ++ [(param1, param2)])%list.

(** [QueryArgument::operator()(q1, q2)]: [getPairs().emplace_back], which
    throws when the variant holds no list of pairs; the object itself is
    returned. *)
Definition add_pair (d : QueryArgument) (q1 : string) (q2 : QueryArgument)
  : result QueryArgument :=
  pairs <- getPairs d ;;
  Ok (ArgPairs (pairs ++ [(q1, q2)])%list).

(** The calls [d(k1, v1)(k2, v2)...] one after the other. *)
Fixpoint add_pairs (d : QueryArgument) (kvs : list ArgPair)
  : result QueryArgument :=
  match kvs with
  | [] => Ok d
  | kv :: kvs' =>
      d <- add_pair d (fst kv) (snd kv) ;;
      add_pairs d kvs'
  end.

(** [emits2 q conn c type param text]: the same as [emits] for a code of
    two bytes, [c] and [type]. *)
Definition emits2 (q : Query) (conn : option MYSQL) (c type : ascii)
  (param : QueryArgument) (text : string) : Prop :=
  forall rest idx current_param ret,
    render_loop q conn (String c (String type rest)) idx
      (param :: current_param) true ret
    = render_loop q conn rest (S (S idx)) current_param false (ret ++ text).

(** [rejects2 q conn c type param e]: at the code of two bytes [c], [type]
    with [param] as the next argument, [render] throws [e idx], where [idx]
    is the offset of [type]. *)
Definition rejects2 (q : Query) (conn : option MYSQL) (c type : ascii)
  (param : QueryArgument) (e : nat -> exception) : Prop :=
  forall rest idx current_param ret,
    render_loop q conn (String c (String type rest)) idx
      (param :: current_param) true ret
    = Throw (e (S idx)).

(** The bytes that the if-chain of [render] knows after a [%]. *)
Definition known_code (c : ascii) : bool :=
  contains "%dsfKTC=VLUWQ" c.

(** The kinds of value that [appendValue] takes under the letter [type],
    by the tests of its branches. *)
Definition accepts (type : ascii) (d : QueryArgument) : bool :=
  (isString d && (Ascii.eqb type "s" || Ascii.eqb type "v")) ||
  (isInt d && (Ascii.eqb type "d" || Ascii.eqb type "v")) ||
  (isDouble d && (Ascii.eqb type "f" || Ascii.eqb type "v")) ||
  isNull d.

(** The name that [appendValue] gives in its message to the kind of a value
    it refuses because of the letter. *)
Definition value_type (d : QueryArgument) : string :=
  if isString d then "string"
  else if isInt d then "int"
  else if isDouble d then "double"
  else typeName d.

(** The number of codes of [rest] that take an argument, counted the way
    the loop of [render] reads them: [%%] takes none, [%=] and [%L] are
    read with the byte after them. *)
Fixpoint count_codes (after_percent : bool) (rest : string) : nat :=
  match rest with
  | "" => 0
  | String c rest' =>
      if negb after_percent then count_codes (Ascii.eqb c "%") rest'
      else if Ascii.eqb c "%" then count_codes false rest'
      else if Ascii.eqb c "=" || Ascii.eqb c "L" then
        match rest' with
        | "" => 1
        | String _ rest'' => S (count_codes false rest'')
        end
      else S (count_codes false rest')
  end.

(** A backtick of [s] is always followed by a second one, which is then
    passed over: the rule by which a backtick stays inside a quoted
    identifier. *)
Fixpoint only_paired_backticks (s : string) : bool :=
  match s with
  | "" => true
  | String c s' =>
      if Ascii.eqb c "`" then
        match s' with
        | String c' s'' => Ascii.eqb c' "`" && only_paired_backticks s''
        | "" => false
        end
      else only_paired_backticks s'
  end.

(** ** QueryArgument from [folly::dynamic]

    [folly::dynamic] is not part of the sources.  Its values are modelled
    as far as [initFromDynamic] looks at them: an object is the list of
    its entries in the order in which [keys()] walks them, with keys that
    are strings, as in an object read from JSON; in a [folly::dynamic] no
    key stands twice. *)
Inductive dynamic : Type :=
| DObject (items : list (string * dynamic))
| DNull
| DArray (elems : list dynamic)
| DString (s : string)
| DBool (b : bool)
| DDouble (x : double)
| DInt (i : Z).

(** [std::sort] on the keys: ascending by [operator<] of the strings, which
    compares them byte by byte. *)
Fixpoint insert_key (key : string) (keys : list string) : list string :=
  match keys with
  | [] => [key]
  | k :: keys' =>
      if String.leb key k then key :: keys else k :: insert_key key keys'
  end.

Fixpoint sort_keys (keys : list string) : list string :=
  match keys with
  | [] => []
  | k :: keys' => insert_key k (sort_keys keys')
  end.

(** [param[key]] *)
Fixpoint lookup {A : Type} (key : string) (items : list (string * A))
  : option A :=
  match items with
  | [] => None
  | kv :: items' =>
      if String.eqb (fst kv) key then Some (snd kv) else lookup key items'
  end.

(** The loop of [initFromDynamic] over the sorted keys, on the entries
    with their values already converted: [QueryArgument q2(param[key])] is
    the converted value of the entry of [key].  Every key of the loop is a
    key of the object. *)
Fixpoint pairs_of_keys (keys : list string)
  (values : list (string * QueryArgument)) : list ArgPair :=
  match keys with
  | [] => []
  | key :: keys' =>
      match lookup key values with
      | Some q2 => (key, q2) :: pairs_of_keys keys' values
      | None => pairs_of_keys keys' values
      end
  end.

(** [QueryArgument::initFromDynamic], as the value it leaves in [value_].
    The last branch of the source, which throws, is for no kind of
    [folly::dynamic]. *)
Fixpoint initFromDynamic (param : dynamic) : QueryArgument :=
  match param with
  | DObject items =>
      let keys := sort_keys (map fst items) in
      let values :=
        map (fun kv => match kv with
                       | (key, val) => (key, initFromDynamic val)
                       end) items in
      ArgPairs (pairs_of_keys keys values)
  | DNull => ArgNull
  | DArray elems => ArgList (map initFromDynamic elems)
  | DString s => ArgString s
  | DBool b => ArgBool b
  | DDouble x => ArgDouble x
  | DInt i => ArgInt i
  end.

(** [located q lo hi e]: when [e] is a parse error, it names the template
    of [q] and an offset from [lo] to [hi]. *)
Definition located (q : Query) (lo hi : nat) (e : exception) : Prop :=
  match e with
  | ParseError s offset _ => s = query_text_ q /\ lo <= offset <= hi
  | _ => True
  end.

(** An appender writes behind the text it is given.  [framed f]: when [f]
    returns, what it has appended depends neither on the text before it
    nor on the statement and the offset, which are for the messages. *)
Definition appender : Type := Query -> nat -> string -> result string.

Definition framed (f : appender) : Prop :=
  forall q idx s s',
    f q idx s = Ok s' ->
    exists out,
      s' = s ++ out /\
      forall q' idx' s0, f q' idx' s0 = Ok (s0 ++ out).

End Squangle.

(** ** An instance for the examples

    Doubles with an integral value, which folly prints without a fraction;
    an escape routine that puts a backslash before a quote or a backslash;
    names for the alternatives of the variant. *)

Definition backslash : ascii := "092"%char.

Fixpoint sample_escape (value : string) : string :=
  match value with
  | "" => ""
  | String c value' =>
      if Ascii.eqb c "'" || Ascii.eqb c dquote || Ascii.eqb c backslash
      then String backslash (String c (sample_escape value'))
      else String c (sample_escape value')
  end.

Definition sample_ext : Externals := {|
  double := Z;
  to_fbstring_double := to_fbstring_int;
  MYSQL := unit;
  mysql_real_escape_string := fun _ value => sample_escape value
|}.

Definition sample_names : @TypeNames sample_ext :=
  fun d =>
    match d with
    | ArgString _ => "string"
    | ArgDouble _ => "double"
    | ArgBool _ => "bool"
    | ArgInt _ => "int64"
    | ArgNull => "null"
    | ArgQuery _ => "Query"
    | ArgList _ => "list"
    | ArgPairs _ => "pairs"
    end.

Definition sample_Query : Type := @Query sample_ext.
Definition sample_Argument : Type := @QueryArgument sample_ext.

Definition sample_render_with (q : sample_Query) (conn : option unit)
  (params : list sample_Argument) : result string :=
  @render_with sample_ext sample_names q conn params.

Definition sample_render (q : sample_Query) (conn : option unit)
  : result string :=
  @render sample_ext sample_names q conn.

Definition sample_renderQuery (mq : @MultiQuery sample_ext)
  (conn : option unit) : result (string * @MultiQuery sample_ext) :=
  @renderQuery sample_ext sample_names mq conn.

Definition sample_emits (q : sample_Query) (conn : option unit) (c : ascii)
  (param : sample_Argument) (text : string) : Prop :=
  @emits sample_ext sample_names q conn c param text.

Definition sample_rejects (q : sample_Query) (conn : option unit) (c : ascii)
  (param : sample_Argument) (e : nat -> exception) : Prop :=
  @rejects sample_ext sample_names q conn c param e.

Definition sample_statement : sample_Query := Query_new "SELECT 1" [].

Definition sample_double (v : Z) : sample_Argument := @ArgDouble sample_ext v.

Definition sample_emits2 (q : sample_Query) (conn : option unit)
  (c type : ascii) (param : sample_Argument) (text : string) : Prop :=
  @emits2 sample_ext sample_names q conn c type param text.

Definition sample_rejects2 (q : sample_Query) (conn : option unit)
  (c type : ascii) (param : sample_Argument) (e : nat -> exception) : Prop :=
  @rejects2 sample_ext sample_names q conn c type param e.

Definition sample_renderMultiQuery (conn : option unit)
  (queries : list sample_Query) : result string :=
  @renderMultiQuery sample_ext sample_names conn queries.

Definition sample_object : list (string * @dynamic sample_ext) :=
  [("b", DInt 2); ("a", DNull)].

(** * Properties *)

(** ** Byte strings *)

Lemma append_nil_r (s : string) : s ++ "" = s.
Proof.
  induction s as [|c s IH]; simpl; [reflexivity | now rewrite IH].
Qed.

Lemma append_assoc (s1 s2 s3 : string) : (s1 ++ s2) ++ s3 = s1 ++ s2 ++ s3.
Proof.
  induction s1 as [|c s1 IH]; simpl; [reflexivity | now rewrite IH].
Qed.

Lemma contains_In (chars : string) (c : ascii) :
  contains chars c = true <-> In c (list_ascii_of_string chars).
Proof.
  induction chars as [|x chars IH]; simpl.
  - split; [discriminate | tauto].
  - rewrite orb_true_iff, IH, Ascii.eqb_eq. tauto.
Qed.

(** [find_first_of] finds the first byte of the set, when there is one. *)
Lemma find_first_of_Some (chars s : string) (offset : nat) :
  find_first_of s chars = Some offset ->
  (exists c, get offset s = Some c /\ contains chars c = true) /\
  (forall j c, j < offset -> get j s = Some c -> contains chars c = false).
Proof.
  revert offset. induction s as [|x s IH]; simpl; intros offset H.
  - discriminate.
  - destruct (contains chars x) eqn:Hx.
    + injection H as <-. split.
      * exists x. now split.
      * intros j c Hj. lia.
    + destruct (find_first_of s chars) as [o|] eqn:Ho; simpl in H;
        [injection H as <- | discriminate].
      destruct (IH o eq_refl) as [[c [Hc1 Hc2]] Hmin]. split.
      * exists c. now split.
      * intros [|j] d Hj Hd.
        -- injection Hd as <-. exact Hx.
        -- apply (Hmin j d); [lia | exact Hd].
Qed.

Lemma find_first_of_found (chars s : string) (j : nat) (c : ascii) :
  get j s = Some c -> contains chars c = true ->
  exists offset, find_first_of s chars = Some offset /\ offset <= j.
Proof.
  revert j. induction s as [|x s IH]; simpl; intros j Hget Hc.
  - discriminate.
  - destruct (contains chars x) eqn:Hx.
    + exists 0. split; [reflexivity | lia].
    + destruct j as [|j].
      * injection Hget as ->. congruence.
      * destruct (IH j Hget Hc) as [o [Ho Hle]]. rewrite Ho. simpl.
        exists (S o). split; [reflexivity | lia].
Qed.

Lemma dangerous_spec (c : ascii) :
  contains dangerous c = true <->
  (c = ";" \/ c = "'" \/ c = dquote \/ c = "`")%char.
Proof.
  rewrite contains_In. simpl. intuition congruence.
Qed.

Lemma find_first_of_single (c : ascii) :
  contains dangerous c = false ->
  find_first_of (String "%" (String c "")) dangerous = None.
Proof.
  intros Hc. cbn [find_first_of].
  change (contains dangerous "%") with false. cbv iota. now rewrite Hc.
Qed.

Lemma join_cons (sep x : string) (l : list string) :
  join sep (x :: l) = x ++ sep_each sep l.
Proof.
  revert x. induction l as [|y l IH]; intros x.
  - simpl. now rewrite append_nil_r.
  - change (join sep (x :: y :: l)) with (x ++ sep ++ join sep (y :: l)).
    now rewrite IH.
Qed.

Lemma joined_nil (first : bool) (sep : string) : joined first sep [] = "".
Proof. now destruct first. Qed.

(** One more element in front of what the loop appends. *)
Lemma joined_cons (first : bool) (sep x : string) (l : list string) :
  joined first sep (x :: l)
  = (if first then "" else sep) ++ x ++ joined false sep l.
Proof.
  destruct first; unfold joined.
  - now rewrite join_cons.
  - reflexivity.
Qed.

Lemma prefix_nil (s : string) : prefix "" s = true.
Proof. destruct s; reflexivity. Qed.

Lemma prefix_cons (a b : ascii) (p s : string) :
  prefix (String a p) (String b s) = Ascii.eqb a b && prefix p s.
Proof.
  simpl. destruct (ascii_dec a b) as [-> | Hne].
  - now rewrite Ascii.eqb_refl.
  - apply Ascii.eqb_neq in Hne. now rewrite Hne.
Qed.

Lemma occurs_cons (pat : string) (c : ascii) (s : string) :
  occurs pat (String c s) = prefix pat (String c s) || occurs pat s.
Proof. reflexivity. Qed.

Lemma length_append (s1 s2 : string) :
  String.length (s1 ++ s2) = String.length s1 + String.length s2.
Proof.
  induction s1 as [|c s1 IH]; simpl; [reflexivity | now rewrite IH].
Qed.

Lemma substring_append_all (s1 s2 : string) :
  substring 0 (String.length s1) (s1 ++ s2) = s1.
Proof.
  induction s1 as [|c s1 IH]; simpl.
  - destruct s2; reflexivity.
  - now rewrite IH.
Qed.

(** *** [replace_all] of the end of a comment *)

Lemma replace_all_from_skip (search format : string) (skip : nat)
  (c : ascii) (s : string) :
  replace_all_from search format (S skip) (String c s)
  = replace_all_from search format skip s.
Proof. reflexivity. Qed.

Lemma replace_all_from_step (search format : string) (c : ascii)
  (s : string) :
  replace_all_from search format 0 (String c s)
  = if prefix search (String c s)
    then format ++ replace_all_from search format (String.length search - 1) s
    else String c (replace_all_from search format 0 s).
Proof. reflexivity. Qed.

(** What [replace_all] leaves starts with a [/] only where its input does:
    the replacement starts with a space. *)
Lemma close_replaced_head (s t : string) :
  replace_all_from "*/" " * / " 0 s = String "/" t ->
  exists s', s = String "/" s'.
Proof.
  destruct s as [|c s]; [discriminate|].
  rewrite replace_all_from_step.
  destruct (prefix "*/" (String c s)); simpl; intros H.
  - discriminate.
  - injection H as -> _. now exists s.
Qed.

Lemma close_replaced_bounded (n : nat) (s : string) :
  String.length s <= n ->
  occurs "*/" (replace_all_from "*/" " * / " 0 s) = false.
Proof.
  revert s. induction n as [|n IH]; intros s Hlen.
  - destruct s; [reflexivity | simpl in Hlen; lia].
  - destruct s as [|c s]; [reflexivity|].
    rewrite replace_all_from_step.
    destruct (prefix "*/" (String c s)) eqn:Hpre.
    + rewrite prefix_cons in Hpre. apply andb_prop in Hpre as [_ Hs].
      destruct s as [|d s]; [discriminate|].
      simpl String.length. simpl Nat.sub. rewrite replace_all_from_skip.
      change (" * / " ++ ?t) with
        (String " " (String "*" (String " " (String "/" (String " " t))))).
      rewrite !occurs_cons, !prefix_cons. simpl.
      apply IH. simpl in Hlen. lia.
    + rewrite occurs_cons. rewrite IH by (simpl in Hlen; lia).
      rewrite orb_false_r.
      destruct (prefix "*/" (String c (replace_all_from "*/" " * / " 0 s)))
        eqn:Hout; [|reflexivity].
      rewrite prefix_cons in Hout. apply andb_prop in Hout as [Hc Ht].
      destruct (replace_all_from "*/" " * / " 0 s) as [|d t] eqn:Ht';
        [discriminate|].
      rewrite prefix_cons in Ht. apply andb_prop in Ht as [Hd _].
      apply Ascii.eqb_eq in Hd. subst d.
      destruct (close_replaced_head _ _ Ht') as [s' ->].
      rewrite !prefix_cons, prefix_nil in Hpre. rewrite Hc in Hpre.
      discriminate.
Qed.

(** After [boost::replace_all(str, "*/", " * / ")] no [*/] is left. *)
Lemma close_replaced (s : string) :
  occurs "*/" (replace_all s "*/" " * / ") = false.
Proof. apply (close_replaced_bounded (String.length s)). lia. Qed.

(** *** What [replace_all] leaves of a pattern of two bytes

    [search] is replaced by [format], which starts and ends with a space;
    [target] is the pattern of two bytes, neither a space, that is looked
    for in the result. *)
Section Replaced.

Variables (search format target : string) (a b x y : ascii).

Hypothesis search_two : search = String a (String b "").
Hypothesis target_two : target = String x (String y "").
Hypothesis format_space : exists format', format = String " " format'.
Hypothesis target_no_space : y <> " "%char.
Hypothesis format_passed :
  forall u, occurs target (format ++ u) = occurs target u.

Lemma covered_tail (c : ascii) (s : string) :
  covered search target (String c s) -> covered search target s.
Proof.
  intros H u v Hs. apply (H (String c u) v). now rewrite Hs.
Qed.

Lemma replaced_head (s t : string) :
  replace_all_from search format 0 s = String y t ->
  exists s', s = String y s'.
Proof.
  destruct s as [|c s]; [discriminate|].
  rewrite replace_all_from_step.
  destruct (prefix search (String c s)); intros H.
  - destruct format_space as [format' Hf]. rewrite Hf in H.
    injection H as H _. now contradiction target_no_space.
  - injection H as -> _. now exists s.
Qed.

Lemma replaced_bounded (n : nat) (s : string) :
  String.length s <= n ->
  covered search target s ->
  occurs target (replace_all_from search format 0 s) = false.
Proof.
  revert s. induction n as [|n IH]; intros s Hlen Hcov.
  - destruct s; [|simpl in Hlen; lia].
    cbn [replace_all_from]. rewrite target_two. reflexivity.
  - destruct s as [|c s].
    { cbn [replace_all_from]. rewrite target_two. reflexivity. }
    rewrite replace_all_from_step.
    destruct (prefix search (String c s)) eqn:Hpre.
    + rewrite search_two in Hpre |- *. rewrite prefix_cons in Hpre.
      apply andb_prop in Hpre as [_ Hs].
      destruct s as [|d s]; [discriminate Hs|].
      cbn [String.length Nat.sub]. rewrite replace_all_from_skip.
      rewrite format_passed. rewrite <- search_two.
      apply IH; [simpl in Hlen; lia|].
      now apply covered_tail with d, covered_tail with c.
    + rewrite occurs_cons.
      rewrite IH by (simpl in Hlen; try lia; now apply covered_tail with c).
      rewrite orb_false_r.
      destruct (prefix target (String c (replace_all_from search format 0 s)))
        eqn:Hout; [|reflexivity].
      rewrite target_two, prefix_cons in Hout.
      apply andb_prop in Hout as [Hc Ht].
      destruct (replace_all_from search format 0 s) as [|d t] eqn:Ht';
        [discriminate Ht|].
      rewrite prefix_cons in Ht. apply andb_prop in Ht as [Hd _].
      apply Ascii.eqb_eq in Hd. subst d.
      destruct (replaced_head _ _ Ht') as [s' ->].
      rewrite <- Hpre. symmetry. apply (Hcov "" (String c (String y s')));
        [reflexivity|].
      rewrite target_two, !prefix_cons, prefix_nil, Hc, Ascii.eqb_refl.
      reflexivity.
Qed.

End Replaced.

Lemma occurs_suffix (pat u v : string) :
  occurs pat (u ++ v) = false -> prefix pat v = false.
Proof.
  induction u as [|c u IH]; cbn [String.append]; intros H.
  - destruct v; cbn [occurs] in H; now apply orb_false_elim in H as [H _].
  - rewrite occurs_cons in H. apply orb_false_elim in H as [_ H].
    now apply IH.
Qed.

(** After [boost::replace_all(str, "/*", " / * ")] no [/*] is left. *)
Lemma open_replaced (s : string) :
  occurs "/*" (replace_all s "/*" " / * ") = false.
Proof.
  apply (replaced_bounded "/*" " / * " "/*" "/" "*" "/" "*" eq_refl eq_refl
           (ex_intro _ _ eq_refl)) with (n := String.length s).
  - discriminate.
  - intros u. cbn [String.append]. rewrite !occurs_cons, !prefix_cons.
    reflexivity.
  - lia.
  - intros u v _ H. exact H.
Qed.

(** [boost::replace_all(str, "*/", " * / ")] makes no [/*]. *)
Lemma close_replaced_keeps (s : string) :
  occurs "/*" s = false ->
  occurs "/*" (replace_all s "*/" " * / ") = false.
Proof.
  intros Hs.
  apply (replaced_bounded "*/" " * / " "/*" "*" "/" "/" "*" eq_refl eq_refl
           (ex_intro _ _ eq_refl)) with (n := String.length s).
  - discriminate.
  - intros u. cbn [String.append]. rewrite !occurs_cons, !prefix_cons.
    reflexivity.
  - lia.
  - intros u v Huv H. subst s. rewrite (occurs_suffix _ _ _ Hs) in H.
    discriminate H.
Qed.

Lemma append_inv_head (s x y : string) : s ++ x = s ++ y -> x = y.
Proof.
  induction s as [|c s IH]; cbn [String.append]; intros H;
    [exact H | injection H as H; now apply IH].
Qed.

Lemma double_backticks_paired (v : string) :
  only_paired_backticks (double_backticks v) = true.
Proof.
  induction v as [|c v IH]; [reflexivity|].
  cbn [double_backticks]. destruct (Ascii.eqb c "`") eqn:Hc.
  - cbn [only_paired_backticks Ascii.eqb Bool.eqb andb]. exact IH.
  - cbn [only_paired_backticks]. now rewrite Hc.
Qed.

Lemma double_backticks_closed_inj (v1 v2 : string) :
  double_backticks v1 ++ "`" = double_backticks v2 ++ "`" -> v1 = v2.
Proof.
  revert v2. induction v1 as [|c1 v1 IH]; intros [|c2 v2];
    cbn [double_backticks]; try reflexivity.
  - destruct (Ascii.eqb_spec c2 "`"); cbn [String.append]; intros H.
    + discriminate H.
    + injection H as H _. now subst c2.
  - destruct (Ascii.eqb_spec c1 "`"); cbn [String.append]; intros H.
    + discriminate H.
    + injection H as H _. now subst c1.
  - destruct (Ascii.eqb_spec c1 "`"), (Ascii.eqb_spec c2 "`");
      cbn [String.append]; intros H.
    + injection H as H. subst. f_equal. now apply IH.
    + injection H as H _. now subst c2.
    + injection H as H _. now subst c1.
    + injection H as -> H. f_equal. now apply IH.
Qed.

(** *** The order of the keys *)

Lemma leb_iff (a b : string) :
  String.leb a b = true <-> a = b \/ String_as_OT.lt a b.
Proof.
  unfold String.leb. split.
  - destruct (String.compare a b) eqn:Hc; intros H.
    + left. now apply String.compare_eq_iff.
    + right. now apply String_as_OT.cmp_lt.
    + discriminate H.
  - intros [-> | H].
    + assert (Hrefl : String.compare b b = Eq)
        by now apply String_as_OT.cmp_eq.
      now rewrite Hrefl.
    + apply String_as_OT.cmp_lt in H. unfold String_as_OT.cmp in H.
      now rewrite H.
Qed.

Lemma leb_trans (a b c : string) :
  String.leb a b = true -> String.leb b c = true -> String.leb a c = true.
Proof.
  rewrite !leb_iff. intros [-> | Hab] [-> | Hbc]; auto.
  right. now apply String_as_OT.lt_trans with b.
Qed.

Lemma leb_false (a b : string) :
  String.leb a b = false -> String.leb b a = true.
Proof.
  intros H. destruct (String.leb_total a b) as [H' | H']; congruence.
Qed.

Lemma insert_key_comm (x y : string) (keys : list string) :
  insert_key x (insert_key y keys) = insert_key y (insert_key x keys).
Proof.
  induction keys as [|c keys IH]; cbn [insert_key].
  - destruct (String.leb x y) eqn:Hxy, (String.leb y x) eqn:Hyx;
      try reflexivity.
    + now rewrite (String.leb_antisym _ _ Hxy Hyx).
    + apply leb_false in Hxy. congruence.
  - destruct (String.leb x c) eqn:Hxc, (String.leb y c) eqn:Hyc;
      cbn [insert_key]; rewrite ?Hxc, ?Hyc.
    + destruct (String.leb x y) eqn:Hxy, (String.leb y x) eqn:Hyx;
        try reflexivity.
      * now rewrite (String.leb_antisym _ _ Hxy Hyx).
      * apply leb_false in Hxy. congruence.
    + destruct (String.leb y x) eqn:Hyx; [|reflexivity].
      rewrite (leb_trans _ _ _ Hyx Hxc) in Hyc. discriminate Hyc.
    + destruct (String.leb x y) eqn:Hxy; [|reflexivity].
      rewrite (leb_trans _ _ _ Hxy Hyc) in Hxc. discriminate Hxc.
    + now rewrite IH.
Qed.

Lemma sort_keys_permutation (keys keys' : list string) :
  Permutation keys keys' -> sort_keys keys = sort_keys keys'.
Proof.
  induction 1 as [|x l l' _ IH|x y l|l l' l'' _ IH1 _ IH2];
    cbn [sort_keys].
  - reflexivity.
  - now rewrite IH.
  - apply insert_key_comm.
  - now rewrite IH1.
Qed.

Lemma insert_key_perm (key : string) (keys : list string) :
  Permutation (insert_key key keys) (key :: keys).
Proof.
  induction keys as [|k keys IH]; cbn [insert_key]; [reflexivity|].
  destruct (String.leb key k); [reflexivity|].
  rewrite IH. apply perm_swap.
Qed.

Lemma sort_keys_perm (keys : list string) :
  Permutation (sort_keys keys) keys.
Proof.
  induction keys as [|k keys IH]; cbn [sort_keys]; [reflexivity|].
  rewrite insert_key_perm. now constructor.
Qed.

Lemma insert_key_sorted (key : string) (keys : list string) :
  Sorted (fun a b => String.leb a b = true) keys ->
  Sorted (fun a b => String.leb a b = true) (insert_key key keys).
Proof.
  induction 1 as [|k keys Hs IH Hhd]; cbn [insert_key].
  - repeat constructor.
  - destruct (String.leb key k) eqn:Hk.
    + repeat constructor; assumption.
    + constructor; [exact IH|].
      destruct Hhd as [|k' keys' Hk']; cbn [insert_key].
      * constructor. now apply leb_false.
      * destruct (String.leb key k'); constructor;
          [now apply leb_false | exact Hk'].
Qed.

Lemma sort_keys_sorted (keys : list string) :
  Sorted (fun a b => String.leb a b = true) (sort_keys keys).
Proof.
  induction keys as [|k keys IH]; cbn [sort_keys]; [constructor|].
  now apply insert_key_sorted.
Qed.

Lemma lookup_In {A : Type} (key : string) (items : list (string * A)) :
  In key (map fst items) -> exists v, lookup key items = Some v.
Proof.
  induction items as [|[k v] items IH]; cbn [map In lookup fst snd];
    [contradiction|].
  intros [-> | H].
  - exists v. now rewrite String.eqb_refl.
  - destruct (String.eqb k key); [now exists v | now apply IH].
Qed.

Lemma lookup_NoDup {A : Type} (key : string) (v : A)
  (items : list (string * A)) :
  NoDup (map fst items) -> In (key, v) items -> lookup key items = Some v.
Proof.
  induction items as [|[k w] items IH]; cbn [map In lookup fst snd];
    [contradiction|].
  intros Hnd [H | H].
  - injection H as -> ->. now rewrite String.eqb_refl.
  - inversion Hnd as [|? ? Hk Hnd']; subst.
    destruct (String.eqb_spec k key) as [-> | _]; [|now apply IH].
    contradiction Hk. apply (in_map fst) in H. exact H.
Qed.

Lemma lookup_permutation {A : Type} (key : string)
  (items items' : list (string * A)) :
  Permutation items items' ->
  NoDup (map fst items) ->
  lookup key items = lookup key items'.
Proof.
  induction 1 as [|[k v] l l' _ IH|[k1 v1] [k2 v2] l|l l' l'' H1 IH1 _ IH2];
    cbn [lookup map fst snd]; intros Hnd.
  - reflexivity.
  - inversion Hnd; subst. now rewrite IH.
  - destruct (String.eqb_spec k1 key) as [-> | _],
             (String.eqb_spec k2 key) as [-> | _]; try reflexivity.
    inversion Hnd as [|? ? Hk _]; subst. contradiction Hk. now left.
  - rewrite IH1 by exact Hnd. apply IH2.
    apply (Permutation_NoDup (Permutation_map fst H1) Hnd).
Qed.

Section Properties.

Context {ext : Externals} {names : TypeNames}.

(** ** The scalar codes *)

Lemma appendValue_string (q : Query) (s : string) (offset : nat)
  (type : ascii) (v : string) (conn : option MYSQL) :
  type = "s"%char \/ type = "v"%char ->
  appendValue q s offset type (ArgString v) conn
  = Ok (s ++ quote_string conn v).
Proof.
  intros [-> | ->]; unfold appendValue; simpl;
    unfold appendEscapedString, quote_string, escape, push_back;
    destruct conn; rewrite !append_assoc; reflexivity.
Qed.

(** A template that is one code: when the walk emits [text] for the code,
    the rendering is [text]. *)
Lemma render_with_single (q : Query) (conn : option MYSQL) (c : ascii)
  (param : QueryArgument) (text : string) :
  unsafe_query_ q = false ->
  query_text_ q = String "%" (String c "") ->
  contains dangerous c = false ->
  emits q conn c param text ->
  render_with q conn [param] = Ok text.
Proof.
  intros Hu Hq Hc He. unfold render_with. rewrite Hu, Hq.
  rewrite (find_first_of_single c Hc).
  change (render_loop q conn (String "%" (String c "")) 0 [param] false "")
    with (render_loop q conn (String c "") 1 [param] true "").
  rewrite He. reflexivity.
Qed.

Lemma render_with_single_rejects (q : Query) (conn : option MYSQL)
  (c : ascii) (param : QueryArgument) (e : nat -> exception) :
  unsafe_query_ q = false ->
  query_text_ q = String "%" (String c "") ->
  contains dangerous c = false ->
  rejects q conn c param e ->
  render_with q conn [param] = Throw (e 1).
Proof.
  intros Hu Hq Hc He. unfold render_with. rewrite Hu, Hq.
  rewrite (find_first_of_single c Hc).
  change (render_loop q conn (String "%" (String c "")) 0 [param] false "")
    with (render_loop q conn (String c "") 1 [param] true "").
  rewrite He. reflexivity.
Qed.

(** A rendering of a template that is one code, from what the walk does at
    the code. *)
Ltac single_code :=
  first [ eapply render_with_single | eapply render_with_single_rejects ];
  [ reflexivity | reflexivity | reflexivity | ].

Lemma emits_int (q : Query) (conn : option MYSQL) (i : Z) :
  emits q conn "d" (ArgInt i) (to_fbstring_int i).
Proof. intros rest idx ps ret. reflexivity. Qed.

Lemma emits_double (q : Query) (conn : option MYSQL) (x : double) :
  emits q conn "f" (ArgDouble x) (to_fbstring_double x).
Proof. intros rest idx ps ret. reflexivity. Qed.

Lemma emits_string (q : Query) (conn : option MYSQL) (v : string) :
  emits q conn "s" (ArgString v) (quote_string conn v).
Proof.
  intros rest idx ps ret. simpl. f_equal.
  unfold appendEscapedString, quote_string, escape, push_back.
  destruct conn; rewrite !append_assoc; reflexivity.
Qed.

Lemma emits_null (q : Query) (conn : option MYSQL) (c : ascii) :
  c = "d"%char \/ c = "s"%char \/ c = "f"%char ->
  emits q conn c ArgNull "NULL".
Proof. intros [-> | [-> | ->]] rest idx ps ret; reflexivity. Qed.

(** C1.  Under [%d] an Int and under [%f] a Double are emitted as their
    display string; under [%s] a Str is emitted between two double quotes
    with its bytes passed through the Escaper, which without a connection
    leaves them as they are; Null is taken under each of the three codes and
    emits NULL.  This holds wherever the code stands in a template, and so
    for the templates that consist of the code alone. *)
Theorem C1_scalar_codes (q : Query) (conn : option MYSQL) :
  (forall i, emits q conn "d" (ArgInt i) (to_fbstring_int i)) /\
  (forall x, emits q conn "f" (ArgDouble x) (to_fbstring_double x)) /\
  (forall v handle,
     emits q (Some handle) "s" (ArgString v)
       (String dquote (mysql_real_escape_string handle v
                         ++ String dquote ""))) /\
  (forall v,
     emits q None "s" (ArgString v) (String dquote (v ++ String dquote ""))) /\
  (emits q conn "d" ArgNull "NULL" /\ emits q conn "s" ArgNull "NULL" /\
   emits q conn "f" ArgNull "NULL") /\
  (forall params i,
     render_with (Query_new "%d" params) conn [ArgInt i]
     = Ok (to_fbstring_int i)) /\
  (forall params x,
     render_with (Query_new "%f" params) conn [ArgDouble x]
     = Ok (to_fbstring_double x)) /\
  (forall params v,
     render_with (Query_new "%s" params) None [ArgString v]
     = Ok (String dquote (v ++ String dquote ""))) /\
  (forall params,
     render_with (Query_new "%d" params) conn [ArgNull] = Ok "NULL" /\
     render_with (Query_new "%s" params) conn [ArgNull] = Ok "NULL" /\
     render_with (Query_new "%f" params) conn [ArgNull] = Ok "NULL").
Proof.
  split; [apply emits_int|]. split; [apply emits_double|].
  split; [intros v handle; apply (emits_string q (Some handle))|].
  split; [intros v; apply (emits_string q None)|].
  split; [repeat apply conj; apply emits_null; tauto|].
  split; [intros params i|].
  { single_code.
    apply emits_int. }
  split; [intros params x|].
  { single_code.
    apply emits_double. }
  split; [intros params v|].
  { single_code.
    apply (emits_string _ None). }
  intros params. repeat apply conj.
  - single_code.
    apply emits_null; tauto.
  - single_code.
    apply emits_null; tauto.
  - single_code.
    apply emits_null; tauto.
Qed.

(** ** Unsafe statements and the dangerous bytes *)

(** C2.  A Statement marked unsafe renders to its template text, whatever
    the connection and the arguments are: nothing is scanned, escaped or
    consumed, and every rendering gives the same bytes.  A Statement not
    marked unsafe whose template has one of the bytes [;], ['], the double
    quote or the backtick fails with DangerousCharacter at the first such
    byte, whatever the connection and the arguments are: nothing has been
    substituted. *)
Theorem C2_unsafe_verbatim_dangerous_rejected (q : Query) :
  (unsafe_query_ q = true ->
   forall conn params, render_with q conn params = Ok (query_text_ q)) /\
  (unsafe_query_ q = false ->
   forall j c,
     get j (query_text_ q) = Some c ->
     (c = ";" \/ c = "'" \/ c = dquote \/ c = "`")%char ->
     exists offset,
       offset <= j /\
       (exists c0, get offset (query_text_ q) = Some c0 /\
                   (c0 = ";" \/ c0 = "'" \/ c0 = dquote \/ c0 = "`")%char) /\
       (forall i ci, i < offset -> get i (query_text_ q) = Some ci ->
                     ~ (ci = ";" \/ ci = "'" \/ ci = dquote \/ ci = "`")%char) /\
       forall conn params,
         render_with q conn params
         = Throw (DangerousCharacter (query_text_ q) offset)).
Proof.
  split.
  - intros Hu conn params. unfold render_with. now rewrite Hu.
  - intros Hu j c Hget Hc. apply dangerous_spec in Hc.
    destruct (find_first_of_found dangerous _ j c Hget Hc) as [o [Ho Hle]].
    destruct (find_first_of_Some dangerous _ o Ho) as [[c0 [H1 H2]] Hmin].
    exists o. split; [exact Hle|]. split.
    + exists c0. split; [exact H1 | now apply dangerous_spec].
    + split.
      * intros i ci Hi Hgi Hd. apply dangerous_spec in Hd.
        rewrite (Hmin i ci Hi Hgi) in Hd. discriminate.
      * intros conn params. unfold render_with. rewrite Hu, Ho. reflexivity.
Qed.

(** ** Identifiers, comments and raw text *)

Lemma appendColumnTableName_chars_spec (name s : string) :
  appendColumnTableName_chars s name = s ++ double_backticks name.
Proof.
  revert s. induction name as [|c name IH]; intros s; simpl.
  - now rewrite append_nil_r.
  - destruct (Ascii.eqb c "`") eqn:Hc; rewrite IH; unfold push_back;
      rewrite ?append_assoc; simpl; [|reflexivity].
    apply Ascii.eqb_eq in Hc. now subst c.
Qed.

Lemma appendColumnTableName_string (s v : string) :
  appendColumnTableName s (ArgString v) = Ok (s ++ quote_identifier v).
Proof.
  unfold appendColumnTableName. simpl.
  rewrite appendColumnTableName_chars_spec. unfold push_back, quote_identifier.
  now rewrite !append_assoc.
Qed.

Lemma appendColumnTableName_other (s : string) (d : QueryArgument) :
  isString d = false ->
  appendColumnTableName s d = (str <- asString d ;; Ok (s ++ str)).
Proof. intros H. unfold appendColumnTableName. now rewrite H. Qed.

Lemma asString_no_display_string (d : QueryArgument) :
  no_display_string d = true -> asString d = Throw UnsupportedConversion.
Proof. destruct d; simpl; intros H; try discriminate; reflexivity. Qed.

Lemma emits_identifier (q : Query) (conn : option MYSQL) (c : ascii)
  (v : string) :
  c = "T"%char \/ c = "C"%char ->
  emits q conn c (ArgString v) (quote_identifier v).
Proof.
  intros [-> | ->] rest idx ps ret; cbn -[appendColumnTableName];
    now rewrite appendColumnTableName_string.
Qed.

Lemma emits_identifier_other (q : Query) (conn : option MYSQL) (c : ascii)
  (d : QueryArgument) (str : string) :
  c = "T"%char \/ c = "C"%char ->
  isString d = false -> asString d = Ok str ->
  emits q conn c d str.
Proof.
  intros [-> | ->] Hd Hs rest idx ps ret; cbn -[appendColumnTableName];
    rewrite appendColumnTableName_other, Hs by exact Hd; reflexivity.
Qed.

Lemma rejects_identifier (q : Query) (conn : option MYSQL) (c : ascii)
  (d : QueryArgument) :
  c = "T"%char \/ c = "C"%char ->
  no_display_string d = true ->
  rejects q conn c d (fun _ => UnsupportedConversion).
Proof.
  intros Hc Hd rest idx ps ret.
  assert (Hs : isString d = false)
    by (destruct d; try reflexivity; discriminate Hd).
  destruct Hc as [-> | ->]; cbn -[appendColumnTableName];
    rewrite appendColumnTableName_other, asString_no_display_string
      by assumption; reflexivity.
Qed.

(** C4, as amended.  Under [%T] and [%C] a Str is emitted between two
    backticks with every backtick in it doubled, so that the name [a`b]
    renders as [`a``b`]; a Bool, an Int or a Double is emitted as its
    display string, without backticks; a Null, a sub-statement, a List or a
    PairList is refused by the conversion to a display string, not by a
    check of the code against the kind of the value. *)
Theorem C4_identifier_codes (q : Query) (conn : option MYSQL) (c : ascii) :
  c = "T"%char \/ c = "C"%char ->
  (forall v, emits q conn c (ArgString v) ("`" ++ double_backticks v ++ "`")) /\
  (forall b, emits q conn c (ArgBool b) (to_fbstring_bool b)) /\
  (forall i, emits q conn c (ArgInt i) (to_fbstring_int i)) /\
  (forall x, emits q conn c (ArgDouble x) (to_fbstring_double x)) /\
  (forall d, no_display_string d = true ->
             rejects q conn c d (fun _ => UnsupportedConversion)) /\
  (forall params,
     render_with (Query_new "%T" params) conn [ArgString "a`b"]
     = Ok "`a``b`").
Proof.
  intros Hc.
  split; [intros v; now apply emits_identifier|].
  split; [intros b; now apply emits_identifier_other|].
  split; [intros i; now apply emits_identifier_other|].
  split; [intros x; now apply emits_identifier_other|].
  split; [intros d Hd; now apply rejects_identifier|].
  intros params. single_code.
  apply (emits_identifier _ conn "T" "a`b"). now left.
Qed.

(** C6.  For an argument with a display string [str], [%K] emits
    [/*], then [str] with every [/*] replaced by [ / * ] and after that
    every [*/] replaced by [ * / ], then [*/]; the text between the
    opening and the closing mark has no [*/] in it. *)
Theorem C6_comment_never_closed_early (q : Query) (conn : option MYSQL)
  (d : QueryArgument) (str : string) :
  asString d = Ok str ->
  let body := replace_all (replace_all str "/*" " / * ") "*/" " * / " in
  let out := "/*" ++ body ++ "*/" in
  emits q conn "K" d out /\
  (forall params, render_with (Query_new "%K" params) conn [d] = Ok out) /\
  substring 2 (String.length out - 4) out = body /\
  occurs "*/" body = false.
Proof.
  intros Hs body out.
  assert (He : forall q', emits q' conn "K" d out).
  { intros q' rest idx ps ret. cbn -[replace_all]. unfold appendComment.
    rewrite Hs. cbn -[replace_all]. now rewrite !append_assoc. }
  split; [apply He|].
  split; [intros params; single_code; apply He|].
  split.
  - unfold out. rewrite !length_append. simpl String.length.
    replace (2 + (String.length body + 2) - 4) with (String.length body)
      by lia.
    change (substring 2 ?n ("/*" ++ ?t)) with (substring 0 n t).
    apply substring_append_all.
  - apply close_replaced.
Qed.

(** C8, as amended.  [%Q] emits the display string of a Str, a Bool, an Int
    or a Double as it is, without quotes and without escaping; for a Null,
    a sub-statement, a List or a PairList the conversion to a display string
    throws and nothing is rendered. *)
Theorem C8_raw_code (q : Query) (conn : option MYSQL) :
  (forall v, emits q conn "Q" (ArgString v) v) /\
  (forall b, emits q conn "Q" (ArgBool b) (to_fbstring_bool b)) /\
  (forall i, emits q conn "Q" (ArgInt i) (to_fbstring_int i)) /\
  (forall x, emits q conn "Q" (ArgDouble x) (to_fbstring_double x)) /\
  (forall d, no_display_string d = true ->
             rejects q conn "Q" d (fun _ => UnsupportedConversion)) /\
  (forall params d,
     no_display_string d = true ->
     render_with (Query_new "%Q" params) conn [d]
     = Throw UnsupportedConversion).
Proof.
  assert (Hr : forall q' d, no_display_string d = true ->
                 rejects q' conn "Q" d (fun _ => UnsupportedConversion)).
  { intros q' d Hd rest idx ps ret. simpl.
    now rewrite asString_no_display_string. }
  split; [intros v rest idx ps ret; reflexivity|].
  split; [intros b rest idx ps ret; reflexivity|].
  split; [intros i rest idx ps ret; reflexivity|].
  split; [intros x rest idx ps ret; reflexivity|].
  split; [apply Hr|].
  intros params d Hd.
  eapply (render_with_single_rejects _ _ _ _ (fun _ => UnsupportedConversion));
    [reflexivity | reflexivity | reflexivity | now apply Hr].
Qed.

(** ** Rows of values and pairs *)

Lemma appendValue_wildcard (q : Query) (s : string) (offset : nat)
  (d : QueryArgument) (conn : option MYSQL) :
  wildcard_ok d = true ->
  appendValue q s offset "v" d conn = Ok (s ++ value_text conn d).
Proof.
  destruct d; intros H; try discriminate H; try reflexivity.
  apply appendValue_string. now right.
Qed.

Lemma render_V_cols_spec (q : Query) (idx : nat) (conn : option MYSQL)
  (first_row : bool) (cols : list QueryArgument) :
  forallb wildcard_ok cols = true ->
  forall ret col_idx row_len first_in_row,
    render_V_cols q idx conn first_row cols ret col_idx row_len first_in_row
    = Ok (ret ++ joined first_in_row ", " (map (value_text conn) cols),
          col_idx + List.length cols,
          if first_row then row_len + List.length cols else row_len).
Proof.
  induction cols as [|col cols IH]; intros Hok ret col_idx row_len first.
  - simpl. rewrite joined_nil, append_nil_r, !Nat.add_0_r.
    now destruct first_row.
  - simpl in Hok. apply andb_prop in Hok as [Hcol Hcols].
    cbn [render_V_cols map List.length].
    rewrite appendValue_wildcard by exact Hcol. cbn [bind].
    rewrite (IH Hcols), joined_cons. f_equal. f_equal; [f_equal|].
    + destruct first; cbn [negb]; now rewrite !append_assoc.
    + lia.
    + destruct first_row; [lia | reflexivity].
Qed.

(** The first column that [appendValue] refuses stops the row. *)
Lemma render_V_cols_refused (q : Query) (idx : nat) (conn : option MYSQL)
  (first_row : bool) (pre post : list QueryArgument) (b : bool) :
  forallb wildcard_ok pre = true ->
  forall ret col_idx row_len first_in_row,
    render_V_cols q idx conn first_row (pre ++ ArgBool b :: post)%list ret
      col_idx row_len first_in_row
    = Throw (SpecifierTypeMismatch (query_text_ q) idx "v"
               (typeName (ArgBool b))).
Proof.
  induction pre as [|col pre IH]; intros Hok ret col_idx row_len first.
  - reflexivity.
  - simpl in Hok. apply andb_prop in Hok as [Hcol Hpre].
    cbn [render_V_cols app].
    rewrite appendValue_wildcard by exact Hcol. cbn [bind].
    now apply IH.
Qed.

Lemma render_V_rows_rest (q : Query) (idx : nat) (conn : option MYSQL)
  (row_len : nat) (rows : list (list QueryArgument)) :
  forallb (forallb wildcard_ok) rows = true ->
  forall ret,
    render_V_rows q idx conn (map ArgList rows) ret row_len false
    = if forallb (fun row => Nat.eqb (List.length row) row_len) rows
      then Ok (ret ++ sep_each ", " (map (row_text conn) rows))
      else Throw (RowLengthMismatch (query_text_ q) idx).
Proof.
  induction rows as [|row rows IH]; intros Hok ret.
  - simpl. now rewrite append_nil_r.
  - simpl in Hok. apply andb_prop in Hok as [Hrow Hrows].
    cbn [render_V_rows map getList bind negb forallb].
    rewrite (render_V_cols_spec _ _ _ _ _ Hrow). cbn [bind Nat.add].
    destruct (Nat.eqb (List.length row) row_len); cbn [negb andb];
      [|reflexivity].
    rewrite (IH Hrows).
    destruct (forallb (fun r => Nat.eqb (List.length r) row_len) rows);
      [|reflexivity].
    f_equal. unfold row_text, joined. cbn [sep_each].
    now rewrite !append_assoc.
Qed.

Lemma render_V_rows_spec (q : Query) (idx : nat) (conn : option MYSQL)
  (rows : list (list QueryArgument)) (ret : string) :
  forallb (forallb wildcard_ok) rows = true ->
  render_V_rows q idx conn (map ArgList rows) ret 0 true
  = if same_width rows then Ok (ret ++ rows_text conn rows)
    else Throw (RowLengthMismatch (query_text_ q) idx).
Proof.
  destruct rows as [|row rows]; intros Hok.
  - simpl. now rewrite append_nil_r.
  - simpl in Hok. apply andb_prop in Hok as [Hrow Hrows].
    cbn [render_V_rows map getList bind negb same_width].
    rewrite (render_V_cols_spec _ _ _ _ _ Hrow). cbn [bind Nat.add].
    rewrite (render_V_rows_rest _ _ _ _ _ Hrows).
    destruct (forallb (fun r => Nat.eqb (List.length r) (List.length row))
                rows); [|reflexivity].
    f_equal. unfold rows_text. cbn [map]. rewrite join_cons.
    unfold row_text, joined. now rewrite !append_assoc.
Qed.

Lemma emits_rows (q : Query) (conn : option MYSQL)
  (rows : list (list QueryArgument)) :
  forallb (forallb wildcard_ok) rows = true ->
  same_width rows = true ->
  emits q conn "V" (ArgList (map ArgList rows)) (rows_text conn rows).
Proof.
  intros Hok Hw rest idx ps ret. cbn -[render_V_rows].
  now rewrite render_V_rows_spec, Hw.
Qed.

Lemma rejects_rows (q : Query) (conn : option MYSQL)
  (rows : list (list QueryArgument)) :
  forallb (forallb wildcard_ok) rows = true ->
  same_width rows = false ->
  rejects q conn "V" (ArgList (map ArgList rows))
    (RowLengthMismatch (query_text_ q)).
Proof.
  intros Hok Hw rest idx ps ret. cbn -[render_V_rows].
  now rewrite render_V_rows_spec, Hw.
Qed.

Lemma rejects_bool_in_first_row (q : Query) (conn : option MYSQL)
  (pre post : list QueryArgument) (b : bool) (rows : list QueryArgument) :
  forallb wildcard_ok pre = true ->
  rejects q conn "V" (ArgList (ArgList (pre ++ ArgBool b :: post) :: rows))
    (fun idx => SpecifierTypeMismatch (query_text_ q) idx "v"
                  (typeName (ArgBool b))).
Proof.
  intros Hok rest idx ps ret. cbn -[render_V_cols].
  now rewrite render_V_cols_refused.
Qed.

(** C3, as amended.  For a [%V] argument that is a List of Lists whose
    elements are Null, Int, Double or Str, of any mix and with no check
    against a code: when every row has as many columns as the first one,
    each row is rendered as [(v1, v2, ...)] with its elements joined by
    [, ] and the rows are joined by [, ]; otherwise rendering fails with
    RowLengthMismatch. *)
Theorem C3_rows_of_values (q : Query) (conn : option MYSQL)
  (rows : list (list QueryArgument)) :
  forallb (forallb wildcard_ok) rows = true ->
  (same_width rows = true ->
   emits q conn "V" (ArgList (map ArgList rows))
     (join ", "
        (map (fun row =>
                "(" ++ join ", " (map (value_text conn) row) ++ ")") rows))) /\
  (same_width rows = false ->
   rejects q conn "V" (ArgList (map ArgList rows))
     (RowLengthMismatch (query_text_ q))) /\
  (forall params,
     render_with (Query_new "%V" params) conn
       [ArgList [ArgList [ArgInt 1; ArgInt 2]; ArgList [ArgInt 3; ArgInt 4]]]
     = Ok "(1, 2), (3, 4)" /\
     render_with (Query_new "%V" params) conn
       [ArgList [ArgList [ArgInt 1; ArgInt 2]; ArgList [ArgInt 3]]]
     = Throw (RowLengthMismatch "%V" 1)).
Proof.
  intros Hok.
  split; [intros Hw; now apply emits_rows|].
  split; [intros Hw; now apply rejects_rows|].
  intros params. split; reflexivity.
Qed.

Lemma appendValueClauses_loop_spec (q : Query) (idx : nat) (sep : string)
  (conn : option MYSQL) (pairs : list ArgPair) :
  forallb (fun kv => wildcard_ok (snd kv)) pairs = true ->
  forall ret first_param,
    appendValueClauses_loop q idx sep conn pairs ret first_param
    = Ok (ret ++ joined first_param sep
                   (map (clause_pair_text sep conn) pairs)).
Proof.
  induction pairs as [|[key value] pairs IH]; intros Hok ret first.
  - simpl. now rewrite joined_nil, append_nil_r.
  - simpl in Hok. apply andb_prop in Hok as [Hv Hpairs].
    cbn [appendValueClauses_loop map fst snd].
    rewrite appendColumnTableName_string. cbn [bind].
    rewrite joined_cons. unfold clause_pair_text at 1. cbn [fst snd].
    destruct (isNull value && negb (Ascii.eqb (first_char sep) ",")).
    + cbn [bind]. rewrite (IH Hpairs).
      destruct first; cbn [negb]; now rewrite !append_assoc.
    + rewrite appendValue_wildcard by exact Hv. cbn [bind].
      rewrite (IH Hpairs).
      destruct first; cbn [negb]; now rewrite !append_assoc.
Qed.

Lemma clause_pair_text_set (conn : option MYSQL) (kv : ArgPair) :
  clause_pair_text ", " conn kv = set_pair_text conn kv.
Proof.
  unfold clause_pair_text, set_pair_text. simpl. now rewrite andb_false_r.
Qed.

Lemma clause_pair_text_where (conn : option MYSQL) (kv : ArgPair) :
  clause_pair_text " AND " conn kv = where_pair_text conn kv.
Proof.
  unfold clause_pair_text, where_pair_text. simpl. rewrite andb_true_r.
  now destruct (isNull (snd kv)).
Qed.

Lemma emits_set (q : Query) (conn : option MYSQL) (pairs : list ArgPair) :
  forallb (fun kv => wildcard_ok (snd kv)) pairs = true ->
  emits q conn "U" (ArgPairs pairs)
    (join ", " (map (set_pair_text conn) pairs)).
Proof.
  intros Hok rest idx ps ret.
  rewrite <- (map_ext _ _ (clause_pair_text_set conn)).
  cbn -[appendValueClauses_loop join clause_pair_text].
  now rewrite appendValueClauses_loop_spec.
Qed.

Lemma emits_where (q : Query) (conn : option MYSQL) (pairs : list ArgPair) :
  forallb (fun kv => wildcard_ok (snd kv)) pairs = true ->
  emits q conn "W" (ArgPairs pairs)
    (join " AND " (map (where_pair_text conn) pairs)).
Proof.
  intros Hok rest idx ps ret.
  rewrite <- (map_ext _ _ (clause_pair_text_where conn)).
  cbn -[appendValueClauses_loop join clause_pair_text].
  now rewrite appendValueClauses_loop_spec.
Qed.

(** C5.  For a PairList whose values are Null, Int, Double or Str: [%U]
    joins the pairs, each written [key = value], with [, ], and a Null
    value is written [key = NULL]; [%W] joins the pairs with [ AND ], and a
    Null value is written [key IS NULL].  The pairs (a, 1), (b, Null) render
    as [`a` = 1, `b` = NULL] under [%U] and as [`a` = 1 AND `b` IS NULL]
    under [%W]. *)
Theorem C5_set_and_where_clauses (q : Query) (conn : option MYSQL)
  (pairs : list ArgPair) :
  forallb (fun kv => wildcard_ok (snd kv)) pairs = true ->
  emits q conn "U" (ArgPairs pairs)
    (join ", "
       (map (fun kv =>
               quote_identifier (fst kv) ++ " = " ++ value_text conn (snd kv))
          pairs)) /\
  emits q conn "W" (ArgPairs pairs)
    (join " AND "
       (map (fun kv =>
               if isNull (snd kv) then quote_identifier (fst kv) ++ " IS NULL"
               else quote_identifier (fst kv) ++ " = "
                      ++ value_text conn (snd kv))
          pairs)) /\
  value_text conn ArgNull = "NULL" /\
  (forall params,
     render_with (Query_new "%U" params) conn
       [ArgPairs [("a", ArgInt 1); ("b", ArgNull)]]
     = Ok "`a` = 1, `b` = NULL" /\
     render_with (Query_new "%W" params) conn
       [ArgPairs [("a", ArgInt 1); ("b", ArgNull)]]
     = Ok "`a` = 1 AND `b` IS NULL").
Proof.
  intros Hok.
  split; [now apply emits_set|].
  split; [now apply emits_where|].
  split; [reflexivity|].
  intros params. split; reflexivity.
Qed.

(** ** Batches *)

Lemma eqb_nonempty (s : string) : s <> "" -> String.eqb s "" = false.
Proof. destruct s; [congruence | reflexivity]. Qed.

(** Once the output is not empty, every statement gets a [;] before it. *)
Lemma renderMultiQuery_loop_nonempty (conn : option MYSQL)
  (queries : list Query) (rs : list string) :
  results conn queries rs ->
  forall ret, ret <> "" ->
    renderMultiQuery_loop conn queries ret = Ok (ret ++ sep_each ";" rs).
Proof.
  induction 1 as [|query r queries rs Hr _ IH]; intros ret Hret.
  - simpl. now rewrite append_nil_r.
  - cbn [renderMultiQuery_loop sep_each].
    rewrite (eqb_nonempty _ Hret). cbn [negb].
    rewrite Hr. cbn [bind]. rewrite IH.
    + now rewrite !append_assoc.
    + rewrite append_assoc. now destruct ret.
Qed.

(** The statements at the head of a batch that render to nothing leave no
    trace, not even a separator. *)
Lemma renderMultiQuery_exact (conn : option MYSQL) (queries : list Query)
  (rs : list string) :
  results conn queries rs ->
  renderMultiQuery conn queries = Ok (join ";" (skip_empty rs)).
Proof.
  unfold renderMultiQuery.
  induction 1 as [|query r queries rs Hr Hres IH]; [reflexivity|].
  cbn [renderMultiQuery_loop String.eqb negb skip_empty].
  rewrite Hr. cbn [bind String.append].
  destruct (String.eqb r "") eqn:Hempty.
  - apply String.eqb_eq in Hempty. subst r. exact IH.
  - apply String.eqb_neq in Hempty.
    rewrite (renderMultiQuery_loop_nonempty _ _ _ Hres) by exact Hempty.
    now rewrite join_cons.
Qed.

Lemma renderMultiQuery_spec (conn : option MYSQL) (queries : list Query)
  (rs : list string) :
  results conn queries rs ->
  hd "" rs <> "" ->
  renderMultiQuery conn queries = Ok (join ";" rs).
Proof.
  intros Hres Hhd. rewrite (renderMultiQuery_exact _ _ _ Hres).
  destruct rs as [|r rs]; [reflexivity|].
  simpl in Hhd. apply String.eqb_neq in Hhd. cbn [skip_empty].
  now rewrite Hhd.
Qed.

(** C7, as amended.  For a batch of two statements or more whose first
    statement renders to a text that is not empty, the batch renders to
    render(s1), [;], render(s2), ..., [;], render(sn): a [;] between every
    two neighbours and none at the end.  A batch of one statement that is
    marked unsafe renders to the template text of that statement, with no
    separator. *)
Theorem C7_batch_rendering (conn : option MYSQL) :
  (forall mq rs,
     2 <= List.length (queries_ mq) ->
     results conn (queries_ mq) rs ->
     hd "" rs <> "" ->
     renderQuery mq conn
     = Ok (join ";" rs, mkMultiQuery (queries_ mq) (join ";" rs))) /\
  (forall mq query,
     queries_ mq = [query] ->
     isUnsafe query = true ->
     renderQuery mq conn = Ok (query_text_ query, mq)).
Proof.
  split.
  - intros mq rs Hlen Hres Hhd. unfold renderQuery.
    rewrite (renderMultiQuery_spec _ _ _ Hres Hhd).
    destruct (queries_ mq) as [|q0 [|q1 queries]];
      [simpl in Hlen; lia | simpl in Hlen; lia | reflexivity].
  - intros mq query Hq Hu. unfold renderQuery. now rewrite Hq, Hu.
Qed.

(** ** The number of arguments *)

Lemma too_few_at (q : Query) (conn : option MYSQL) (c : ascii)
  (rest : string) (idx : nat) (ret : string) :
  c <> "%"%char ->
  render_loop q conn (String c rest) idx [] true ret
  = Throw (TooFewParameters (query_text_ q) idx).
Proof.
  intros Hc. apply Ascii.eqb_neq in Hc. cbn [render_loop negb].
  now rewrite Hc.
Qed.

(** Case analysis along the branches of the loop body in [H]. *)
Ltac loop_branches H :=
  repeat match type of H with
    | Throw _ = Ok _ => discriminate H
    | parseError _ _ _ = Ok _ => discriminate H
    | context [if ?b then _ else _] => destruct b eqn:?
    | context [bind ?m _] => destruct m eqn:?; cbn [bind] in H |- *
    | context [match ?r with EmptyString => _ | String _ _ => _ end] =>
        destruct r; cbn [String.append]
    end.

(** Arguments that the walk does not reach are handed on as they are. *)
Lemma render_loop_extra (q : Query) (conn : option MYSQL)
  (extra : list QueryArgument) (n : nat) :
  forall rest, String.length rest <= n ->
  forall idx current_param after_percent ret w,
    render_loop q conn rest idx current_param after_percent ret = Ok w ->
    render_loop q conn rest idx (current_param ++ extra)%list after_percent
      ret
    = Ok (with_params w (walk_current_param w ++ extra)%list).
Proof.
  induction n as [|n IH]; intros rest Hlen idx cur ap ret w H.
  - destruct rest; [|simpl in Hlen; lia].
    cbn [render_loop] in H |- *. now injection H as <-.
  - destruct rest as [|c rest].
    + cbn [render_loop] in H |- *. now injection H as <-.
    + cbn [String.length] in Hlen. cbn [render_loop] in H |- *.
      destruct ap; cbn [negb] in H |- *.
      * destruct (Ascii.eqb c "%"); [apply IH; [lia | exact H]|].
        destruct cur as [|param cur]; [discriminate H|].
        cbn [app]. loop_branches H;
          try (apply IH; [simpl in Hlen |- *; lia | exact H]).
      * destruct (negb (Ascii.eqb c "%")); apply IH; try lia; exact H.
Qed.

(** With fewer arguments the walk goes the same way until it runs out. *)
Lemma render_loop_prefix (q : Query) (conn : option MYSQL)
  (extra : list QueryArgument) (n : nat) :
  forall rest, String.length rest <= n ->
  forall idx current_param after_percent ret w,
    render_loop q conn rest idx (current_param ++ extra)%list after_percent
      ret = Ok w ->
    (exists left,
       walk_current_param w = (left ++ extra)%list /\
       render_loop q conn rest idx current_param after_percent ret
       = Ok (with_params w left)) \/
    (exists i,
       render_loop q conn rest idx current_param after_percent ret
       = Throw (TooFewParameters (query_text_ q) i)).
Proof.
  induction n as [|n IH]; intros rest Hlen idx cur ap ret w H.
  - destruct rest; [|simpl in Hlen; lia].
    cbn [render_loop] in H |- *. injection H as <-.
    left. exists cur. now split.
  - destruct rest as [|c rest].
    + cbn [render_loop] in H |- *. injection H as <-.
      left. exists cur. now split.
    + cbn [String.length] in Hlen. cbn [render_loop] in H |- *.
      destruct ap; cbn [negb] in H |- *.
      * destruct (Ascii.eqb c "%"); [apply IH; [lia | exact H]|].
        destruct cur as [|param cur]; [right; now exists idx|].
        cbn [app] in H. loop_branches H;
          try (apply IH; [simpl in Hlen |- *; lia | exact H]).
      * destruct (negb (Ascii.eqb c "%")); apply IH; try lia; exact H.
Qed.

(** The walk over a template in two parts: when the walk over the first
    part ends without an exception, the walk over the whole goes on from
    there over the second part. *)
Lemma render_loop_append (q : Query) (conn : option MYSQL) (s2 : string)
  (n : nat) :
  forall s1, String.length s1 <= n ->
  forall idx current_param after_percent ret w,
    render_loop q conn s1 idx current_param after_percent ret = Ok w ->
    render_loop q conn (s1 ++ s2) idx current_param after_percent ret
    = render_loop q conn s2 (walk_idx w) (walk_current_param w)
        (walk_after_percent w) (walk_ret w).
Proof.
  induction n as [|n IH]; intros s1 Hlen idx cur ap ret w H.
  - destruct s1; [|simpl in Hlen; lia].
    cbn [render_loop] in H. now injection H as <-.
  - destruct s1 as [|c s1].
    + cbn [render_loop] in H. now injection H as <-.
    + cbn [String.length] in Hlen. cbn [render_loop String.append] in H |- *.
      destruct ap; cbn [negb] in H |- *.
      * destruct (Ascii.eqb c "%"); [apply IH; [lia | exact H]|].
        destruct cur as [|param cur]; [discriminate H|].
        loop_branches H;
          try (apply IH; [simpl in Hlen |- *; lia | exact H]).
      * destruct (negb (Ascii.eqb c "%")); apply IH; try lia; exact H.
Qed.

(** What [emits] says of a code, for a code inside a template: when the
    walk over what stands before the code ends outside a [%] with [param]
    as the next argument, the walk over the whole template goes on behind
    the code with [text] appended and [param] passed. *)
Lemma emits_in_template (q : Query) (conn : option MYSQL) (c : ascii)
  (param : QueryArgument) (text : string) (before behind : string)
  (params current_param : list QueryArgument) (ret : string) (idx : nat) :
  emits q conn c param text ->
  render_loop q conn before 0 params false ""
  = Ok (mkWalk ret (param :: current_param) false idx) ->
  render_loop q conn (before ++ String "%" (String c behind)) 0 params false
    ""
  = render_loop q conn behind (S (S idx)) current_param false (ret ++ text).
Proof.
  intros He Hbefore.
  rewrite (render_loop_append q conn _ _ _ (le_n _) _ _ _ _ _ Hbefore).
  cbn [walk_idx walk_current_param walk_after_percent walk_ret].
  change (render_loop q conn (String "%" (String c behind)) idx
            (param :: current_param) false ret)
    with (render_loop q conn (String c behind) (S idx)
            (param :: current_param) true ret).
  apply He.
Qed.

Lemma render_with_extra (q : Query) (conn : option MYSQL)
  (params extra : list QueryArgument) (out : string) :
  unsafe_query_ q = false ->
  render_with q conn params = Ok out ->
  extra <> [] ->
  render_with q conn (params ++ extra)%list
  = Throw (TooManyParameters (query_text_ q)).
Proof.
  unfold render_with. intros -> H Hextra.
  destruct (find_first_of (query_text_ q) dangerous); [discriminate H|].
  destruct (render_loop q conn (query_text_ q) 0 params false "")
    as [w|] eqn:Hw; [|discriminate H].
  rewrite (render_loop_extra q conn extra _ _ (le_n _) _ _ _ _ _ Hw).
  cbn [bind with_params walk_after_percent walk_current_param] in H |- *.
  destruct (walk_after_percent w); [discriminate H|].
  destruct (walk_current_param w); [|discriminate H].
  destruct extra; [congruence | reflexivity].
Qed.

Lemma render_with_missing (q : Query) (conn : option MYSQL)
  (params extra : list QueryArgument) (out : string) :
  unsafe_query_ q = false ->
  render_with q conn (params ++ extra)%list = Ok out ->
  extra <> [] ->
  exists idx,
    render_with q conn params = Throw (TooFewParameters (query_text_ q) idx).
Proof.
  unfold render_with. intros -> H Hextra.
  destruct (find_first_of (query_text_ q) dangerous); [discriminate H|].
  destruct (render_loop q conn (query_text_ q) 0 (params ++ extra) false "")
    as [w|] eqn:Hw; [|discriminate H].
  cbn [bind] in H.
  destruct (walk_after_percent w); [discriminate H|].
  destruct (walk_current_param w) eqn:Hleft; [|discriminate H].
  destruct (render_loop_prefix q conn extra _ _ (le_n _) _ _ _ _ _ Hw)
    as [[left [Hl _]] | [i Hi]].
  - rewrite Hleft in Hl. symmetry in Hl. apply app_eq_nil in Hl.
    now destruct Hl.
  - exists i. now rewrite Hi.
Qed.

(** A code that takes an argument takes the next one, and the walk goes on
    behind the code with the arguments after it. *)
Lemma consumes_next (q : Query) (conn : option MYSQL) (c : ascii)
  (rest : string) (idx : nat) (param : QueryArgument)
  (current_param : list QueryArgument) (ret : string) (w : walk) :
  c <> "%"%char ->
  render_loop q conn (String c rest) idx (param :: current_param) true ret
  = Ok w ->
  exists rest' idx' ret',
    render_loop q conn rest' idx' current_param false ret' = Ok w /\
    ((rest' = rest /\ idx' = S idx) \/
     (exists type, rest = String type rest' /\ idx' = S (S idx))).
Proof.
  intros Hc H. apply Ascii.eqb_neq in Hc. cbn [render_loop negb] in H.
  rewrite Hc in H.
  loop_branches H;
    solve [ do 3 eexists; split; [exact H | left; now split]
          | do 3 eexists; split; [exact H | right; eexists; now split] ].
Qed.

(** C9, as amended.  In a render of a template that is not unsafe: a code
    that takes an argument, met when no argument is left, fails with
    TooFewParameters at the offset of the code; a code that finds an
    argument takes the next one and the walk goes on with the arguments
    after it; when the walk has reached the end of the template outside an
    unfinished [%] code and arguments are left, the render fails with
    TooManyParameters.  So arguments given beyond
    those of a successful render fail with TooManyParameters, and a render
    without the last arguments of a successful one fails with
    TooFewParameters.  The template [%d %d] with one argument fails with
    TooFewParameters and [%d] with two arguments fails with
    TooManyParameters. *)
Theorem C9_argument_count (q : Query) (conn : option MYSQL) :
  unsafe_query_ q = false ->
  (forall c rest idx ret,
     c <> "%"%char ->
     render_loop q conn (String c rest) idx [] true ret
     = Throw (TooFewParameters (query_text_ q) idx)) /\
  (forall c rest idx param current_param ret w,
     c <> "%"%char ->
     render_loop q conn (String c rest) idx (param :: current_param) true ret
     = Ok w ->
     exists rest' idx' ret',
       render_loop q conn rest' idx' current_param false ret' = Ok w /\
       ((rest' = rest /\ idx' = S idx) \/
        (exists type, rest = String type rest' /\ idx' = S (S idx)))) /\
  (forall params w,
     find_first_of (query_text_ q) dangerous = None ->
     render_loop q conn (query_text_ q) 0 params false "" = Ok w ->
     walk_after_percent w = false ->
     walk_current_param w <> [] ->
     render_with q conn params = Throw (TooManyParameters (query_text_ q))) /\
  (forall params extra out,
     render_with q conn params = Ok out ->
     extra <> [] ->
     render_with q conn (params ++ extra)%list
     = Throw (TooManyParameters (query_text_ q))) /\
  (forall params extra out,
     render_with q conn (params ++ extra)%list = Ok out ->
     extra <> [] ->
     exists idx,
       render_with q conn params
       = Throw (TooFewParameters (query_text_ q) idx)) /\
  (forall params i,
     render_with (Query_new "%d %d" params) conn [ArgInt i]
     = Throw (TooFewParameters "%d %d" 4)) /\
  (forall params i j,
     render_with (Query_new "%d" params) conn [ArgInt i; ArgInt j]
     = Throw (TooManyParameters "%d")).
Proof.
  intros Hu.
  split; [intros; now apply too_few_at|].
  split; [intros c rest idx param cur ret w Hc H;
          now apply (consumes_next q conn c rest idx param cur ret w)|].
  split.
  { intros params w Hfind Hw Hap Hleft. unfold render_with.
    rewrite Hu, Hfind, Hw. cbn [bind]. rewrite Hap.
    destruct (walk_current_param w); [congruence | reflexivity]. }
  split; [intros params extra out; now apply render_with_extra|].
  split; [intros params extra out; now apply render_with_missing|].
  split; intros; reflexivity.
Qed.

(** C10.  The check that an argument is left comes before the look at the
    letter of the code: after a [%], any byte but [%] met when no argument
    is left fails with TooFewParameters, also when the byte is not the
    letter of any code, so that [%Z] with no argument reports
    TooFewParameters and not UnknownSpecifier, which is what the same letter
    reports when an argument is left.  [%%] takes no argument and renders
    as one [%], also with no argument at all. *)
Theorem C10_exhaustion_before_letter (q : Query) (conn : option MYSQL) :
  (forall c rest idx ret,
     c <> "%"%char ->
     render_loop q conn (String c rest) idx [] true ret
     = Throw (TooFewParameters (query_text_ q) idx) /\
     TooFewParameters (query_text_ q) idx
     <> UnknownSpecifier (query_text_ q) idx) /\
  (forall params,
     render_with (Query_new "%Z" params) conn []
     = Throw (TooFewParameters "%Z" 1)) /\
  (forall rest idx param current_param ret,
     render_loop q conn (String "Z" rest) idx (param :: current_param) true
       ret
     = Throw (UnknownSpecifier (query_text_ q) idx)) /\
  (forall rest idx current_param ret,
     render_loop q conn (String "%" rest) idx current_param true ret
     = render_loop q conn rest (S idx) current_param false (ret ++ "%")) /\
  (forall params, render_with (Query_new "%%" params) conn [] = Ok "%").
Proof.
  split.
  { intros c rest idx ret Hc. split; [now apply too_few_at|].
    unfold TooFewParameters, UnknownSpecifier. intros H. discriminate H. }
  split; [intros; reflexivity|].
  split; [intros; reflexivity|].
  split; intros; reflexivity.
Qed.

(** ** The letters of the scalar codes *)

Lemma appendValue_accepts (q : Query) (s : string) (offset : nat)
  (type : ascii) (d : QueryArgument) (conn : option MYSQL) :
  accepts type d = true ->
  appendValue q s offset type d conn = Ok (s ++ value_text conn d).
Proof.
  unfold accepts, appendValue.
  destruct d; simpl;
    repeat match goal with
      | |- context [Ascii.eqb type ?x] => destruct (Ascii.eqb type x)
      end;
    simpl; try discriminate; try reflexivity; intros _;
    unfold appendEscapedString, quote_string, escape, push_back;
    destruct conn; now rewrite !append_assoc.
Qed.

Lemma appendValue_refuses (q : Query) (s : string) (offset : nat)
  (type : ascii) (d : QueryArgument) (conn : option MYSQL) :
  accepts type d = false ->
  appendValue q s offset type d conn
  = Throw (SpecifierTypeMismatch (query_text_ q) offset type (value_type d)).
Proof.
  unfold accepts, appendValue, value_type.
  destruct d; simpl;
    repeat match goal with
      | |- context [Ascii.eqb type ?x] => destruct (Ascii.eqb type x)
      end;
    simpl; try discriminate; reflexivity.
Qed.

(** X1.  Under [%d], [%s] and [%f] the kind of the argument decides: a
    value that [appendValue] takes under the letter (Null under each, Int
    under [d], Str under [s], Double under [f]) is emitted, and any other
    value is refused at the offset of the letter with the message that
    names its kind, [string], [int], [double] or the name of its type. *)
Theorem X1_scalar_letter_decides (q : Query) (conn : option MYSQL)
  (c : ascii) (d : QueryArgument) :
  c = "d"%char \/ c = "s"%char \/ c = "f"%char ->
  (accepts c d = true -> emits q conn c d (value_text conn d)) /\
  (accepts c d = false ->
   rejects q conn c d
     (fun idx => SpecifierTypeMismatch (query_text_ q) idx c (value_type d))).
Proof.
  intros Hc. split; intros Hd rest idx ps ret.
  - destruct Hc as [-> | [-> | ->]]; cbn -[appendValue];
      now rewrite appendValue_accepts.
  - destruct Hc as [-> | [-> | ->]]; cbn -[appendValue];
      now rewrite appendValue_refuses.
Qed.

(** X2.  The code [%=] with the letter [d], [s] or [f] emits [ IS NULL] for
    a Null and [ = ] with the value for a value that the letter takes, and
    refuses any other value with the message of the letter; with any other
    letter it fails with the message for [%=] at the offset of that letter,
    whatever the argument is, and with no byte after it it fails with
    "unexpected end of string" at the offset of [=]. *)
Theorem X2_equals_code (q : Query) (conn : option MYSQL) (type : ascii)
  (param : QueryArgument) :
  (type = "d"%char \/ type = "s"%char \/ type = "f"%char ->
   (isNull param = true -> emits2 q conn "=" type param " IS NULL") /\
   (isNull param = false -> accepts type param = true ->
    emits2 q conn "=" type param (" = " ++ value_text conn param)) /\
   (accepts type param = false ->
    rejects2 q conn "=" type param
      (fun idx =>
         SpecifierTypeMismatch (query_text_ q) idx type (value_type param)))) /\
  (type <> "d"%char -> type <> "s"%char -> type <> "f"%char ->
   rejects2 q conn "=" type param
     (fun idx => ParseError (query_text_ q) idx "expected %=d, %=c, or %=s")) /\
  (forall idx current_param ret,
     render_loop q conn "=" idx (param :: current_param) true ret
     = Throw (ParseError (query_text_ q) idx "unexpected end of string")).
Proof.
  split; [|split].
  - intros Hc.
    assert (Hletter : negb (Ascii.eqb type "d") && negb (Ascii.eqb type "s")
                      && negb (Ascii.eqb type "f") = false)
      by (destruct Hc as [-> | [-> | ->]]; reflexivity).
    split; [|split].
    + intros Hn rest idx ps ret. cbn -[appendValue].
      now rewrite Hletter, Hn.
    + intros Hn Ha rest idx ps ret. cbn -[appendValue].
      rewrite Hletter, Hn, appendValue_accepts by exact Ha.
      cbn [bind]. now rewrite append_assoc.
    + intros Ha rest idx ps ret. cbn -[appendValue].
      assert (Hn : isNull param = false).
      { destruct param; try reflexivity. unfold accepts in Ha. simpl in Ha.
        discriminate Ha. }
      now rewrite Hletter, Hn, appendValue_refuses.
  - intros Hd Hs Hf rest idx ps ret. cbn -[appendValue].
    apply Ascii.eqb_neq in Hd, Hs, Hf. now rewrite Hd, Hs, Hf.
  - reflexivity.
Qed.

(** ** Lists and clauses under [%L], [%U], [%W] and [%V] *)

Lemma clause_pair_text_or (conn : option MYSQL) (kv : ArgPair) :
  clause_pair_text " OR " conn kv = where_pair_text conn kv.
Proof.
  unfold clause_pair_text, where_pair_text. simpl. rewrite andb_true_r.
  now destruct (isNull (snd kv)).
Qed.

Lemma appendValueClauses_not_pairs (q : Query) (ret : string) (idx : nat)
  (sep : string) (param : QueryArgument) (conn : option MYSQL) :
  isPairList param = false ->
  appendValueClauses q ret idx sep param conn
  = Throw (ParseError (query_text_ q) idx
             ("object expected for %Lx but received " ++ typeName param)).
Proof. intros H. unfold appendValueClauses. now rewrite H. Qed.

(** X3.  [%LO] and [%LA] take a PairList and emit, between parentheses, the
    pairs joined by [ OR ] or by [ AND ], a Null value written [key IS NULL]
    and any other value [key = value]; [%LO], [%LA], [%U] and [%W] refuse
    an argument that is no PairList with the message "object expected for
    %Lx but received" and the name of its type. *)
Theorem X3_clause_codes (q : Query) (conn : option MYSQL) :
  (forall pairs,
     forallb (fun kv => wildcard_ok (snd kv)) pairs = true ->
     emits2 q conn "L" "O" (ArgPairs pairs)
       ("(" ++ join " OR " (map (where_pair_text conn) pairs) ++ ")") /\
     emits2 q conn "L" "A" (ArgPairs pairs)
       ("(" ++ join " AND " (map (where_pair_text conn) pairs) ++ ")")) /\
  (forall param,
     isPairList param = false ->
     let e := fun idx =>
       ParseError (query_text_ q) idx
         ("object expected for %Lx but received " ++ typeName param) in
     rejects2 q conn "L" "O" param e /\ rejects2 q conn "L" "A" param e /\
     rejects q conn "U" param e /\ rejects q conn "W" param e).
Proof.
  split.
  - intros pairs Hok. split; intros rest idx ps ret.
    + rewrite <- (map_ext _ _ (clause_pair_text_or conn)).
      cbn -[appendValueClauses_loop join clause_pair_text].
      rewrite appendValueClauses_loop_spec by exact Hok.
      cbn [bind joined]. now rewrite !append_assoc.
    + rewrite <- (map_ext _ _ (clause_pair_text_where conn)).
      cbn -[appendValueClauses_loop join clause_pair_text].
      rewrite appendValueClauses_loop_spec by exact Hok.
      cbn [bind joined]. now rewrite !append_assoc.
  - intros param Hp e. repeat apply conj; intros rest idx ps ret;
      cbn -[appendValueClauses];
      now rewrite appendValueClauses_not_pairs.
Qed.

Lemma render_L_list_values (q : Query) (idx : nat) (conn : option MYSQL)
  (type : ascii) (vals : list QueryArgument) :
  type <> "C"%char ->
  forallb (accepts type) vals = true ->
  forall ret first_param,
    render_L_list q idx conn type vals ret first_param
    = Ok (ret ++ joined first_param ", " (map (value_text conn) vals)).
Proof.
  intros Hc. apply Ascii.eqb_neq in Hc.
  induction vals as [|val vals IH]; intros Hok ret first.
  - simpl. now rewrite joined_nil, append_nil_r.
  - simpl in Hok. apply andb_prop in Hok as [Hval Hvals].
    cbn [render_L_list map]. rewrite Hc.
    rewrite appendValue_accepts by exact Hval. cbn [bind].
    rewrite (IH Hvals), joined_cons.
    destruct first; cbn [negb]; now rewrite !append_assoc.
Qed.

Lemma render_L_list_names (q : Query) (idx : nat) (conn : option MYSQL)
  (names0 : list string) :
  forall ret first_param,
    render_L_list q idx conn "C" (map ArgString names0) ret first_param
    = Ok (ret ++ joined first_param ", " (map quote_identifier names0)).
Proof.
  induction names0 as [|name names0 IH]; intros ret first.
  - simpl. now rewrite joined_nil, append_nil_r.
  - cbn [render_L_list map Ascii.eqb Bool.eqb].
    rewrite appendColumnTableName_string. cbn [bind].
    rewrite IH, joined_cons.
    destruct first; cbn [negb]; now rewrite !append_assoc.
Qed.

(** X4.  [%L] with a letter other than [O] and [A] takes a List and emits
    its elements joined by [, ]: with the letter [C] each name between
    backticks, with any other letter each value that [appendValue] takes
    under the letter; an empty List emits nothing.  An argument that is no
    List fails with "expected array for %L formatter" at the offset of the
    letter, and [%L] with no byte after it fails with "unexpected end of
    string". *)
Theorem X4_list_code (q : Query) (conn : option MYSQL) (type : ascii) :
  type <> "O"%char -> type <> "A"%char ->
  (forall vals,
     type <> "C"%char ->
     forallb (accepts type) vals = true ->
     emits2 q conn "L" type (ArgList vals)
       (join ", " (map (value_text conn) vals))) /\
  (forall names0,
     emits2 q conn "L" "C" (ArgList (map ArgString names0))
       (join ", " (map quote_identifier names0))) /\
  (forall param,
     isList param = false ->
     rejects2 q conn "L" type param
       (fun idx =>
          ParseError (query_text_ q) idx "expected array for %L formatter")) /\
  (forall param idx current_param ret,
     render_loop q conn "L" idx (param :: current_param) true ret
     = Throw (ParseError (query_text_ q) idx "unexpected end of string")).
Proof.
  intros HO HA. apply Ascii.eqb_neq in HO, HA.
  split; [|split; [|split]].
  - intros vals HC Hok rest idx ps ret. cbn -[render_L_list].
    rewrite HO, HA. cbn -[render_L_list].
    now rewrite render_L_list_values.
  - intros names0 rest idx ps ret. cbn -[render_L_list].
    now rewrite render_L_list_names.
  - intros param Hp rest idx ps ret. cbn -[render_L_list].
    now rewrite HO, HA, Hp.
  - reflexivity.
Qed.

(** X5.  [%V] refuses a sub-statement with "%V doesn't allow subquery";
    for any other argument that is no List, and for a List with an element
    that is no List as its first row, [boost::get] throws; a Bool in the
    first row, behind values that are taken, is refused with the message
    for a value of the wrong type. *)
Theorem X5_rows_refused (q : Query) (conn : option MYSQL) :
  (forall sub,
     rejects q conn "V" (ArgQuery sub)
       (fun idx => ParseError (query_text_ q) idx "%V doesn't allow subquery")) /\
  (forall param,
     isQuery param = false -> isList param = false ->
     rejects q conn "V" param (fun _ => BadGet)) /\
  (forall row rows,
     isList row = false ->
     rejects q conn "V" (ArgList (row :: rows)) (fun _ => BadGet)) /\
  (forall pre post b rows,
     forallb wildcard_ok pre = true ->
     rejects q conn "V" (ArgList (ArgList (pre ++ ArgBool b :: post) :: rows))
       (fun idx => SpecifierTypeMismatch (query_text_ q) idx "v"
                     (typeName (ArgBool b)))).
Proof.
  split; [|split; [|split]].
  - intros sub rest idx ps ret. reflexivity.
  - intros param Hq Hl rest idx ps ret.
    destruct param; try discriminate; reflexivity.
  - intros row rows Hl rest idx ps ret.
    destruct row; try discriminate; reflexivity.
  - intros pre post b rows Hpre. now apply rejects_bool_in_first_row.
Qed.

Lemma known_code_false (c : ascii) :
  known_code c = false ->
  Ascii.eqb c "%" = false /\
  (Ascii.eqb c "d" || Ascii.eqb c "s" || Ascii.eqb c "f") = false /\
  Ascii.eqb c "K" = false /\
  (Ascii.eqb c "T" || Ascii.eqb c "C") = false /\
  Ascii.eqb c "=" = false /\ Ascii.eqb c "V" = false /\
  Ascii.eqb c "L" = false /\
  (Ascii.eqb c "U" || Ascii.eqb c "W") = false /\
  Ascii.eqb c "Q" = false.
Proof.
  unfold known_code. cbn [contains]. rewrite orb_false_r.
  rewrite !(Ascii.eqb_sym c).
  intros H. repeat (apply orb_false_elim in H as [? H]).
  repeat match goal with Hx : _ = false |- _ => rewrite Hx; clear Hx end.
  repeat split.
Qed.

(** X6.  After a [%], a byte that is none of [%dsfKTC=VLUWQ], met when an
    argument is left, fails with "unknown % code" at its offset; the
    argument is not looked at. *)
Theorem X6_unknown_code (q : Query) (conn : option MYSQL) (c : ascii)
  (param : QueryArgument) :
  known_code c = false ->
  rejects q conn c param (UnknownSpecifier (query_text_ q)).
Proof.
  intros H rest idx ps ret.
  destruct (known_code_false c H)
    as (H0 & H1 & H2 & H3 & H4 & H5 & H6 & H7 & H8).
  cbn [render_loop negb]. now rewrite H0, H1, H2, H3, H4, H5, H6, H7, H8.
Qed.

(** ** What has been written stays *)

(** Equations between texts, up to the brackets of [++]. *)
Ltac text_eq :=
  unfold push_back; rewrite ?append_assoc; rewrite ?append_nil_r;
  cbn [String.append]; reflexivity.

Lemma appendValue_framed (type : ascii) (d : QueryArgument)
  (conn : option MYSQL) :
  framed (fun q idx s => appendValue q s idx type d conn).
Proof.
  intros q idx s s' H. destruct (accepts type d) eqn:Ha.
  - rewrite appendValue_accepts in H by exact Ha. injection H as <-.
    exists (value_text conn d). split; [reflexivity|].
    intros q' idx' s0. now apply appendValue_accepts.
  - rewrite appendValue_refuses in H by exact Ha. discriminate H.
Qed.

Lemma appendColumnTableName_framed (d : QueryArgument) :
  framed (fun _ _ s => appendColumnTableName s d).
Proof.
  intros _ _ s s' H. destruct (isString d) eqn:Hd.
  - destruct d; try discriminate Hd.
    rewrite appendColumnTableName_string in H. injection H as <-.
    exists (quote_identifier v). split; [reflexivity|].
    intros _ _ s0. apply appendColumnTableName_string.
  - rewrite appendColumnTableName_other in H by exact Hd.
    destruct (asString d) as [str|] eqn:Hs; [|discriminate H].
    injection H as <-. exists str. split; [reflexivity|].
    intros _ _ s0. now rewrite appendColumnTableName_other, Hs.
Qed.

Lemma appendComment_framed (d : QueryArgument) :
  framed (fun _ _ s => appendComment s d).
Proof.
  intros _ _ s s' H. unfold appendComment in *.
  destruct (asString d) as [str|]; [|discriminate H].
  cbn [bind] in H |- *. injection H as <-.
  eexists. split; [reflexivity|]. reflexivity.
Qed.

Lemma appendValueClauses_loop_framed (sep : string) (conn : option MYSQL)
  (pairs : list ArgPair) :
  forall first_param,
    framed (fun q idx s =>
              appendValueClauses_loop q idx sep conn pairs s first_param).
Proof.
  induction pairs as [|[key value] pairs IH]; intros first q idx s s' H.
  - injection H as <-. exists "". split; [now rewrite append_nil_r|].
    intros q' idx' s0. cbn. now rewrite append_nil_r.
  - cbn [appendValueClauses_loop fst snd] in H.
    rewrite appendColumnTableName_string in H. cbn [bind] in H.
    destruct (isNull value && negb (Ascii.eqb (first_char sep) ","))
      eqn:Hnull.
    + cbn [bind] in H.
      destruct (IH false _ _ _ _ H) as (out & -> & Hout). cbv beta in Hout.
      exists ((if negb first then sep else "") ++ quote_identifier key
              ++ " IS NULL" ++ out).
      split; [destruct first; cbn [negb]; text_eq|].
      intros q' idx' s0. cbn [appendValueClauses_loop fst snd].
      rewrite appendColumnTableName_string, Hnull. cbn [bind].
      rewrite Hout. f_equal. destruct first; cbn [negb]; text_eq.
    + destruct (appendValue q _ idx "v" value conn) as [r|] eqn:Hv;
        [|discriminate H].
      cbn [bind] in H.
      destruct (appendValue_framed _ _ _ _ _ _ _ Hv) as (out1 & -> & Hout1).
      destruct (IH false _ _ _ _ H) as (out & -> & Hout).
      cbv beta in Hout, Hout1.
      exists ((if negb first then sep else "") ++ quote_identifier key
              ++ " = " ++ out1 ++ out).
      split; [destruct first; cbn [negb]; text_eq|].
      intros q' idx' s0. cbn [appendValueClauses_loop fst snd].
      rewrite appendColumnTableName_string, Hnull. cbn [bind].
      rewrite Hout1. cbn [bind]. rewrite Hout. f_equal.
      destruct first; cbn [negb]; text_eq.
Qed.

Lemma appendValueClauses_framed (sep : string) (param : QueryArgument)
  (conn : option MYSQL) :
  framed (fun q idx s => appendValueClauses q s idx sep param conn).
Proof.
  intros q idx s s' H. unfold appendValueClauses in *.
  destruct (isPairList param); [|discriminate H]. cbn [negb] in H |- *.
  destruct (getPairs param) as [pairs|]; [|discriminate H].
  cbn [bind] in H |- *.
  exact (appendValueClauses_loop_framed sep conn pairs true _ _ _ _ H).
Qed.

Lemma render_L_list_framed (conn : option MYSQL) (type : ascii)
  (vals : list QueryArgument) :
  forall first_param,
    framed (fun q idx s => render_L_list q idx conn type vals s first_param).
Proof.
  induction vals as [|val vals IH]; intros first q idx s s' H.
  - injection H as <-. exists "". split; [now rewrite append_nil_r|].
    intros q' idx' s0. cbn. now rewrite append_nil_r.
  - cbn [render_L_list] in H.
    destruct (Ascii.eqb type "C") eqn:Htype.
    + destruct (appendColumnTableName _ val) as [r|] eqn:Hv;
        [|discriminate H].
      cbn [bind] in H.
      destruct (appendColumnTableName_framed _ q idx _ _ Hv)
        as (out1 & -> & Hout1).
      destruct (IH false _ _ _ _ H) as (out & -> & Hout).
      cbv beta in Hout, Hout1.
      exists ((if negb first then ", " else "") ++ out1 ++ out).
      split; [destruct first; cbn [negb]; text_eq|].
      intros q' idx' s0. cbn [render_L_list]. rewrite Htype.
      rewrite (Hout1 q' idx'). cbn [bind]. rewrite Hout. f_equal.
      destruct first; cbn [negb]; text_eq.
    + destruct (appendValue q _ idx type val conn) as [r|] eqn:Hv;
        [|discriminate H].
      cbn [bind] in H.
      destruct (appendValue_framed _ _ _ _ _ _ _ Hv) as (out1 & -> & Hout1).
      destruct (IH false _ _ _ _ H) as (out & -> & Hout).
      cbv beta in Hout, Hout1.
      exists ((if negb first then ", " else "") ++ out1 ++ out).
      split; [destruct first; cbn [negb]; text_eq|].
      intros q' idx' s0. cbn [render_L_list]. rewrite Htype.
      rewrite Hout1. cbn [bind]. rewrite Hout. f_equal.
      destruct first; cbn [negb]; text_eq.
Qed.

Lemma render_V_cols_framed (conn : option MYSQL) (first_row : bool)
  (cols : list QueryArgument) :
  forall q idx ret col_idx row_len first_in_row st,
    render_V_cols q idx conn first_row cols ret col_idx row_len first_in_row
    = Ok st ->
    exists out,
      fst (fst st) = ret ++ out /\
      forall q' idx' s0,
        render_V_cols q' idx' conn first_row cols s0 col_idx row_len
          first_in_row
        = Ok (s0 ++ out, snd (fst st), snd st).
Proof.
  induction cols as [|col cols IH];
    intros q idx ret col_idx row_len first st H.
  - injection H as <-. exists "". split; [cbn; now rewrite append_nil_r|].
    intros q' idx' s0. cbn. now rewrite append_nil_r.
  - cbn [render_V_cols] in H.
    destruct (appendValue q _ idx "v" col conn) as [r|] eqn:Hv;
      [|discriminate H].
    cbn [bind] in H.
    destruct (appendValue_framed _ _ _ _ _ _ _ Hv) as (out1 & -> & Hout1).
    destruct (IH _ _ _ _ _ _ _ H) as (out & Hst & Hout).
    cbv beta in Hout1.
    exists ((if negb first then ", " else "") ++ out1 ++ out).
    split; [rewrite Hst; destruct first; cbn [negb]; text_eq|].
    intros q' idx' s0. cbn [render_V_cols].
    rewrite Hout1. cbn [bind]. rewrite Hout. do 3 f_equal.
    destruct first; cbn [negb]; text_eq.
Qed.

Lemma render_V_rows_framed (conn : option MYSQL)
  (rows : list QueryArgument) :
  forall row_len first_row,
    framed (fun q idx s => render_V_rows q idx conn rows s row_len first_row).
Proof.
  induction rows as [|row rows IH]; intros row_len first_row q idx s s' H.
  - injection H as <-. exists "". split; [now rewrite append_nil_r|].
    intros q' idx' s0. cbn. now rewrite append_nil_r.
  - cbn [render_V_rows] in H.
    destruct (getList row) as [cols|] eqn:Hcols; [|discriminate H].
    cbn [bind] in H.
    destruct (render_V_cols q idx conn first_row cols _ 0 row_len true)
      as [[[r col_idx] row_len']|] eqn:Hc; [|discriminate H].
    cbn [bind] in H.
    destruct (render_V_cols_framed _ _ _ _ _ _ _ _ _ _ Hc)
      as (out1 & Hr & Hout1).
    cbn [fst snd] in Hr, Hout1. subst r.
    assert (Hgoal : forall rest_out,
              (forall q' idx' s0,
                 render_V_rows q' idx' conn rows s0 row_len' false
                 = Ok (s0 ++ rest_out)) ->
              (first_row = true \/ Nat.eqb col_idx row_len' = true) ->
              forall q' idx' s0,
                render_V_rows q' idx' conn (row :: rows) s0 row_len first_row
                = Ok (s0 ++ (if negb first_row then ", " else "") ++ "("
                        ++ out1 ++ ")" ++ rest_out)).
    { intros rest_out Hrest Hlen q' idx' s0. cbn [render_V_rows].
      rewrite Hcols. cbn [bind]. rewrite Hout1. cbn [bind].
      destruct first_row.
      - rewrite Hrest. f_equal. cbn [negb]. text_eq.
      - destruct Hlen as [Hlen | Hlen]; [discriminate Hlen|].
        rewrite Hlen. cbn [negb]. rewrite Hrest. f_equal. text_eq. }
    destruct first_row.
    + destruct (IH _ _ _ _ _ _ H) as (out & -> & Hout). cbv beta in Hout.
      exists ("(" ++ out1 ++ ")" ++ out).
      split; [cbn [negb]; text_eq|].
      intros q' idx' s0. rewrite (Hgoal out Hout (or_introl eq_refl)).
      f_equal.
    + destruct (Nat.eqb col_idx row_len') eqn:Hlen;
        cbn [negb] in H; [|discriminate H].
      destruct (IH _ _ _ _ _ _ H) as (out & -> & Hout). cbv beta in Hout.
      exists (", " ++ "(" ++ out1 ++ ")" ++ out).
      split; [cbn [negb]; text_eq|].
      intros q' idx' s0. rewrite (Hgoal out Hout (or_intror eq_refl)).
      f_equal.
Qed.

(** Taking apart what the branches of the loop body have left in the
    context: the calls of the appenders and the walk over the rest. *)
Ltac frame_calls :=
  repeat match goal with
    | E : Throw _ = Ok _ |- _ => discriminate E
    | E : parseError _ _ _ = Ok _ |- _ => discriminate E
    | E : Ok _ = Ok _ |- _ => injection E as E; subst
    | E : bind ?m _ = Ok _ |- _ =>
        destruct m eqn:?; cbn [bind] in E; [|discriminate E]
    | E : appendValue _ _ _ _ _ _ = Ok _ |- _ =>
        let Hout := fresh "Hout" in
        destruct (appendValue_framed _ _ _ _ _ _ _ E) as (? & -> & Hout);
        cbv beta in Hout; clear E
    | E : appendColumnTableName _ _ = Ok _ |- _ =>
        let Hout := fresh "Hout" in
        destruct (appendColumnTableName_framed _ (mkQuery "" false []) 0 _ _ E)
          as (? & -> & Hout);
        specialize (Hout (mkQuery "" false []) 0); cbv beta in Hout; clear E
    | E : appendComment _ _ = Ok _ |- _ =>
        let Hout := fresh "Hout" in
        destruct (appendComment_framed _ (mkQuery "" false []) 0 _ _ E)
          as (? & -> & Hout);
        specialize (Hout (mkQuery "" false []) 0); cbv beta in Hout; clear E
    | E : appendValueClauses _ _ _ _ _ _ = Ok _ |- _ =>
        let Hout := fresh "Hout" in
        destruct (appendValueClauses_framed _ _ _ _ _ _ _ E)
          as (? & -> & Hout);
        cbv beta in Hout; clear E
    | E : render_L_list _ _ _ _ _ _ _ = Ok _ |- _ =>
        let Hout := fresh "Hout" in
        destruct (render_L_list_framed _ _ _ _ _ _ _ _ E) as (? & -> & Hout);
        cbv beta in Hout; clear E
    | E : render_V_rows _ _ _ _ _ _ _ = Ok _ |- _ =>
        let Hout := fresh "Hout" in
        destruct (render_V_rows_framed _ _ _ _ _ _ _ _ E) as (? & -> & Hout);
        cbv beta in Hout; clear E
    end.

(** The walk writes behind the output it is given and comes to the end of
    the template; the statement and the offset it starts from are for the
    messages, and the text before it makes no difference. *)
Lemma render_loop_framed (conn : option MYSQL) (n : nat) :
  forall rest, String.length rest <= n ->
  forall q idx current_param after_percent ret w,
    render_loop q conn rest idx current_param after_percent ret = Ok w ->
    exists out,
      walk_ret w = ret ++ out /\
      walk_idx w = idx + String.length rest /\
      forall q' idx' ret',
        render_loop q' conn rest idx' current_param after_percent ret'
        = Ok (mkWalk (ret' ++ out) (walk_current_param w)
                (walk_after_percent w) (idx' + String.length rest)).
Proof.
  induction n as [|n IH]; intros rest Hlen q idx cur ap ret w H.
  - destruct rest; [|simpl in Hlen; lia].
    cbn [render_loop] in H. injection H as <-. exists "".
    cbn. rewrite !append_nil_r, Nat.add_0_r. repeat split.
    intros q' idx' ret'. now rewrite append_nil_r, Nat.add_0_r.
  - destruct rest as [|c rest].
    + cbn [render_loop] in H. injection H as <-. exists "".
      cbn. rewrite !append_nil_r, Nat.add_0_r. repeat split.
      intros q' idx' ret'. now rewrite append_nil_r, Nat.add_0_r.
    + cbn [String.length] in Hlen. cbn [render_loop] in H |- *.
      destruct ap; cbn [negb] in H |- *.
      * destruct (Ascii.eqb c "%").
        { apply IH in H; [|lia]. destruct H as (out & Hret & Hidx & Hall).
          exists ("%" ++ out). split; [rewrite Hret; text_eq|].
          split; [cbn [String.length]; lia|].
          intros q' idx' ret'. rewrite Hall. cbn [String.length].
          do 2 f_equal; [text_eq | lia]. }
        destruct cur as [|param cur]; [discriminate H|].
        loop_branches H; frame_calls;
          (apply IH in H; [|simpl in Hlen |- *; lia]);
          destruct H as (out & Hret & Hidx & Hall);
          (eexists; split;
           [rewrite Hret; unfold push_back; rewrite ?append_assoc;
            reflexivity|]);
          (split; [cbn [String.length]; lia|]);
          intros q' idx' ret'; rewrite ?Hout; cbn [bind];
          rewrite ?Hout; cbn [bind]; rewrite Hall; cbn [String.length];
          (do 2 f_equal; [text_eq | lia]).
      * destruct (Ascii.eqb c "%"); cbn [negb] in H |- *;
          (apply IH in H; [|lia]);
          destruct H as (out & Hret & Hidx & Hall).
        { exists out. split; [exact Hret|].
          split; [cbn [String.length]; lia|].
          intros q' idx' ret'. rewrite Hall. cbn [String.length].
          do 2 f_equal. lia. }
        { exists (String c out). split; [rewrite Hret; text_eq|].
          split; [cbn [String.length]; lia|].
          intros q' idx' ret'. rewrite Hall. cbn [String.length].
          do 2 f_equal; [text_eq | lia]. }
Qed.

(** ** Templates as a whole *)

Lemma find_first_of_append (chars s1 s2 : string) :
  find_first_of s1 chars = None ->
  find_first_of (s1 ++ s2) chars
  = option_map (fun o => String.length s1 + o) (find_first_of s2 chars).
Proof.
  induction s1 as [|c s1 IH]; cbn [find_first_of String.append String.length].
  - intros _. now destruct (find_first_of s2 chars).
  - destruct (contains chars c); [discriminate|].
    destruct (find_first_of s1 chars); [discriminate|]. intros _.
    rewrite IH by reflexivity. now destruct (find_first_of s2 chars).
Qed.

Lemma render_loop_literal (q : Query) (conn : option MYSQL) (rest : string) :
  contains rest "%" = false ->
  forall idx current_param ret,
    render_loop q conn rest idx current_param false ret
    = Ok (mkWalk (ret ++ rest) current_param false
            (idx + String.length rest)).
Proof.
  induction rest as [|c rest IH]; intros Hc idx cur ret.
  - cbn. now rewrite append_nil_r, Nat.add_0_r.
  - cbn [contains] in Hc. apply orb_false_elim in Hc as [Hc Hrest].
    cbn [render_loop negb String.length]. rewrite Hc. cbn [negb].
    rewrite (IH Hrest). do 2 f_equal; [text_eq | lia].
Qed.

(** The render of a statement that is not unsafe, from the walk. *)
Lemma render_with_walk (q : Query) (conn : option MYSQL)
  (params : list QueryArgument) (out : string) :
  unsafe_query_ q = false ->
  render_with q conn params = Ok out ->
  find_first_of (query_text_ q) dangerous = None /\
  render_loop q conn (query_text_ q) 0 params false ""
  = Ok (mkWalk out [] false (String.length (query_text_ q))).
Proof.
  unfold render_with. intros -> H.
  destruct (find_first_of (query_text_ q) dangerous); [discriminate H|].
  split; [reflexivity|].
  destruct (render_loop q conn (query_text_ q) 0 params false "")
    as [w|] eqn:Hw; [|discriminate H].
  cbn [bind] in H.
  destruct (render_loop_framed conn _ _ (le_n _) _ _ _ _ _ _ Hw)
    as (o & _ & Hidx & _).
  destruct w as [ret left ap idx]. cbn in H, Hidx.
  destruct ap; [discriminate H|]. destruct left; [|discriminate H].
  injection H as ->. now subst idx.
Qed.

(** X7.  A template with no [%] in it and none of the dangerous bytes is
    rendered, with no argument, to itself; with any argument it fails with
    TooManyParameters. *)
Theorem X7_literal_template (q : Query) (conn : option MYSQL) :
  unsafe_query_ q = false ->
  find_first_of (query_text_ q) dangerous = None ->
  contains (query_text_ q) "%" = false ->
  render_with q conn [] = Ok (query_text_ q) /\
  (forall param params,
     render_with q conn (param :: params)
     = Throw (TooManyParameters (query_text_ q))).
Proof.
  intros Hu Hd Hp. unfold render_with. rewrite Hu, Hd.
  split; [|intros param params]; now rewrite (render_loop_literal _ _ _ Hp).
Qed.

(** X8.  A [%] at the end of a template, behind a text that renders with
    the arguments, fails with "string ended with unfinished % code" at the
    offset that is the size of the template; this comes before the count of
    the arguments that are left. *)
Theorem X8_unfinished_code (q q0 : Query) (conn : option MYSQL)
  (params extra : list QueryArgument) (out : string) :
  unsafe_query_ q = false ->
  unsafe_query_ q0 = false ->
  query_text_ q = query_text_ q0 ++ "%" ->
  render_with q0 conn params = Ok out ->
  render_with q conn (params ++ extra)%list
  = Throw (UnterminatedSpecifier (query_text_ q)
             (String.length (query_text_ q))).
Proof.
  intros Hu Hu0 Hq H.
  destruct (render_with_walk _ _ _ _ Hu0 H) as [Hd Hw].
  destruct (render_loop_framed conn _ _ (le_n _) _ _ _ _ _ _ Hw)
    as (o & Hret & _ & Hall).
  cbn in Hret. subst o.
  pose proof (render_loop_extra q conn extra _ _ (le_n _) _ _ _ _ _
                (Hall q 0 "")) as Hextra.
  cbn [with_params walk_ret walk_current_param walk_after_percent walk_idx
       app String.append] in Hextra.
  unfold render_with. rewrite Hu, Hq.
  rewrite (find_first_of_append _ _ _ Hd).
  cbn [find_first_of contains option_map].
  change (contains dangerous "%") with false. cbv iota. cbn [option_map].
  rewrite (render_loop_append q conn "%" _ _ (le_n _) _ _ _ _ _ Hextra).
  cbn. rewrite length_append. cbn. rewrite Nat.add_1_r. reflexivity.
Qed.

(** A successful walk passes as many arguments as the rest of the template
    has codes that take one. *)
Lemma render_loop_count (q : Query) (conn : option MYSQL) (n : nat) :
  forall rest, String.length rest <= n ->
  forall idx current_param after_percent ret w,
    render_loop q conn rest idx current_param after_percent ret = Ok w ->
    List.length current_param
    = count_codes after_percent rest + List.length (walk_current_param w).
Proof.
  induction n as [|n IH]; intros rest Hlen idx cur ap ret w H.
  - destruct rest; [|simpl in Hlen; lia].
    cbn [render_loop] in H. now injection H as <-.
  - destruct rest as [|c rest].
    + cbn [render_loop] in H. now injection H as <-.
    + cbn [String.length] in Hlen. cbn [render_loop count_codes] in H |- *.
      destruct ap; cbn [negb] in H |- *.
      * destruct (Ascii.eqb c "%"); [apply IH in H; [exact H | lia]|].
        destruct cur as [|param cur]; [discriminate H|].
        loop_branches H;
          (apply IH in H; [|simpl in Hlen |- *; lia]);
          cbn [List.length]; rewrite H;
          repeat match goal with
            | |- context [Ascii.eqb c ?x] =>
                destruct (Ascii.eqb_spec c x);
                [subst c; cbn in *; try congruence|]
            end; cbn [orb]; lia.
      * destruct (Ascii.eqb c "%"); cbn [negb] in H;
          apply IH in H; try lia; exact H.
Qed.

(** X9.  When a render succeeds, the number of arguments is the number of
    codes of the template that take one. *)
Theorem X9_arguments_match_codes (q : Query) (conn : option MYSQL)
  (params : list QueryArgument) (out : string) :
  unsafe_query_ q = false ->
  render_with q conn params = Ok out ->
  List.length params = count_codes false (query_text_ q).
Proof.
  intros Hu H. destruct (render_with_walk _ _ _ _ Hu H) as [_ Hw].
  rewrite (render_loop_count q conn _ _ (le_n _) _ _ _ _ _ Hw).
  cbn. lia.
Qed.

(** X10.  [Query::append] puts the text and the arguments of the second
    statement behind those of the first and keeps the first's unsafe flag.
    When neither statement is unsafe and each renders, the statement put
    together renders to the first rendering followed by the second; when
    the first is unsafe, it renders to the two texts one after the
    other. *)
Theorem X10_append_composes (q1 q2 : Query) (conn : option MYSQL) :
  (forall r1 r2,
     unsafe_query_ q1 = false -> unsafe_query_ q2 = false ->
     render q1 conn = Ok r1 -> render q2 conn = Ok r2 ->
     render (Query_append q1 q2) conn = Ok (r1 ++ r2)) /\
  (unsafe_query_ q1 = true ->
   render (Query_append q1 q2) conn
   = Ok (query_text_ q1 ++ query_text_ q2)).
Proof.
  split.
  - intros r1 r2 Hu1 Hu2 H1 H2. unfold render in *.
    destruct (render_with_walk _ _ _ _ Hu1 H1) as [Hd1 Hw1].
    destruct (render_with_walk _ _ _ _ Hu2 H2) as [Hd2 Hw2].
    destruct (render_loop_framed conn _ _ (le_n _) _ _ _ _ _ _ Hw1)
      as (o1 & Ho1 & _ & Hall1).
    destruct (render_loop_framed conn _ _ (le_n _) _ _ _ _ _ _ Hw2)
      as (o2 & Ho2 & _ & Hall2).
    cbn in Ho1, Ho2. subst o1 o2.
    cbn [walk_current_param walk_after_percent] in Hall1, Hall2.
    set (q := Query_append q1 q2).
    pose proof (render_loop_extra q conn (params_ q2) _ _ (le_n _) _ _ _ _ _
                  (Hall1 q 0 "")) as Hfirst.
    cbn [with_params walk_ret walk_current_param walk_after_percent walk_idx
         app String.append] in Hfirst.
    unfold render_with. cbn [unsafe_query_ query_text_ params_ q Query_append].
    rewrite Hu1, (find_first_of_append _ _ _ Hd1), Hd2. cbn [option_map].
    rewrite (render_loop_append q conn (query_text_ q2) _ _ (le_n _)
               _ _ _ _ _ Hfirst).
    cbn [walk_ret walk_current_param walk_after_percent walk_idx].
    rewrite Hall2. reflexivity.
  - intros Hu1. unfold render, render_with.
    cbn [unsafe_query_ query_text_ Query_append]. now rewrite Hu1.
Qed.

(** ** Batches, again *)

(** X11.  [renderMultiQuery] gives the renderings of the statements joined
    by [;], without the renderings at the head of the batch that are
    empty: no separator is written as long as the output is empty, and one
    is written before every statement after that. *)
Theorem X11_batch_exact (conn : option MYSQL) (queries : list Query)
  (rs : list string) :
  results conn queries rs ->
  renderMultiQuery conn queries = Ok (join ";" (skip_empty rs)).
Proof. apply renderMultiQuery_exact. Qed.

Lemma renderMultiQuery_loop_error (conn : option MYSQL) (pre : list Query)
  (rs : list string) (query : Query) (post : list Query) (e : exception) :
  results conn pre rs ->
  render query conn = Throw e ->
  forall ret,
    renderMultiQuery_loop conn (pre ++ query :: post)%list ret = Throw e.
Proof.
  intros Hres He.
  induction Hres as [|q0 r pre rs Hr _ IH]; intros ret;
    cbn [renderMultiQuery_loop app].
  - now rewrite He.
  - rewrite Hr. cbn [bind]. apply IH.
Qed.

(** X12.  A batch stops at the first statement that does not render: the
    exception of that statement is the exception of the batch, whatever
    stands behind it. *)
Theorem X12_batch_first_error (conn : option MYSQL) (pre : list Query)
  (rs : list string) (query : Query) (post : list Query) (e : exception) :
  results conn pre rs ->
  render query conn = Throw e ->
  renderMultiQuery conn (pre ++ query :: post)%list = Throw e.
Proof.
  intros Hres He. now apply renderMultiQuery_loop_error with rs.
Qed.

(** X13.  [MultiQuery::renderQuery] returns what [renderMultiQuery] gives
    for its statements, text or exception: the way around the renderer for
    one unsafe statement changes nothing in the result.  On that way around
    the object is left as it is; everywhere else the object after the call
    has the same statements and the returned text stored in
    [rendered_multi_query_]. *)
Theorem X13_renderQuery_is_renderMultiQuery (mq : MultiQuery)
  (conn : option MYSQL) :
  match renderQuery mq conn with
  | Ok (r, _) => Ok r
  | Throw e => Throw e
  end = renderMultiQuery conn (queries_ mq) /\
  (forall query,
     queries_ mq = [query] -> isUnsafe query = true ->
     renderQuery mq conn = Ok (query_text_ query, mq)) /\
  (forall r mq',
     renderQuery mq conn = Ok (r, mq') ->
     queries_ mq' = queries_ mq /\
     ((forall query, queries_ mq = [query] -> isUnsafe query = false) ->
      mq' = mkMultiQuery (queries_ mq) r)).
Proof.
  unfold renderQuery.
  destruct (queries_ mq) as [|q0 [|q1 queries]] eqn:Hq.
  - split; [reflexivity|]. split; [discriminate|].
    intros r mq' H. cbn in H. injection H as <- <-.
    split; reflexivity.
  - destruct (isUnsafe q0) eqn:Hu.
    + split; [|split].
      * unfold renderMultiQuery. cbn [renderMultiQuery_loop String.eqb negb].
        unfold render, render_with. unfold isUnsafe in Hu. now rewrite Hu.
      * intros query Hquery _. now injection Hquery as <-.
      * intros r mq' H. injection H as <- <-. split; [exact Hq|].
        intros Hno. rewrite (Hno q0 eq_refl) in Hu. discriminate Hu.
    + split; [|split].
      * now destruct (renderMultiQuery conn [q0]).
      * intros query Hquery Hquery'. injection Hquery as <-. congruence.
      * intros r mq' H.
        destruct (renderMultiQuery conn [q0]); [|discriminate H].
        cbn in H. injection H as <- <-. split; reflexivity.
  - split; [|split].
    + now destruct (renderMultiQuery conn (q0 :: q1 :: queries)).
    + discriminate.
    + intros r mq' H.
      destruct (renderMultiQuery conn (q0 :: q1 :: queries));
        [|discriminate H].
      cbn in H. injection H as <- <-. split; reflexivity.
Qed.

(** ** Identifiers and comments, again *)

(** X14.  The name that [appendColumnTableName] writes for a Str stands
    between two backticks, and in between every backtick is followed by a
    second one; two names are written alike only when they are the same
    name. *)
Theorem X14_identifier_quoting (s : string) :
  (forall v, exists body,
     appendColumnTableName s (ArgString v) = Ok (s ++ "`" ++ body ++ "`") /\
     only_paired_backticks body = true) /\
  (forall v1 v2,
     appendColumnTableName s (ArgString v1)
     = appendColumnTableName s (ArgString v2) ->
     v1 = v2).
Proof.
  split.
  - intros v. exists (double_backticks v).
    split; [apply appendColumnTableName_string|].
    apply double_backticks_paired.
  - intros v1 v2. rewrite !appendColumnTableName_string. intros H.
    injection H as H. apply append_inv_head in H.
    unfold quote_identifier in H. cbn [String.append] in H.
    injection H as H. now apply double_backticks_closed_inj.
Qed.

(** X15.  What [appendComment] appends for a value with a display string
    has neither [/*] nor [*/] in it: the comment is neither closed nor
    opened again by the value.  For a value without a display string the
    conversion throws. *)
Theorem X15_comment_text (s : string) (d : QueryArgument) :
  (forall str,
     asString d = Ok str ->
     exists body,
       appendComment s d = Ok (s ++ body) /\
       occurs "/*" body = false /\ occurs "*/" body = false) /\
  (no_display_string d = true ->
   appendComment s d = Throw UnsupportedConversion).
Proof.
  split.
  - intros str Hs.
    exists (replace_all (replace_all str "/*" " / * ") "*/" " * / ").
    split; [unfold appendComment; now rewrite Hs|].
    split; [|apply close_replaced].
    apply close_replaced_keeps, open_replaced.
  - intros Hd. unfold appendComment.
    now rewrite asString_no_display_string.
Qed.

(** ** The pair builder *)

Lemma add_pairs_spec (kvs : list ArgPair) :
  forall pairs,
    add_pairs (ArgPairs pairs) kvs = Ok (ArgPairs (pairs ++ kvs)%list).
Proof.
  induction kvs as [|[k v] kvs IH]; intros pairs.
  - cbn. now rewrite app_nil_r.
  - cbn [add_pairs add_pair getPairs bind fst snd]. rewrite IH.
    now rewrite <- app_assoc.
Qed.

(** X16.  The pairs given to a [QueryArgument] by its constructors and by
    calls of [operator()] are kept in the order of the calls, with the
    keys given twice kept twice; [operator()] on a value that holds no
    list of pairs throws [boost::bad_get]. *)
Theorem X16_pair_builder :
  (forall kvs, add_pairs QueryArgument_pairs kvs = Ok (ArgPairs kvs)) /\
  (forall k v kvs,
     add_pairs (QueryArgument_pair k v) kvs = Ok (ArgPairs ((k, v) :: kvs))) /\
  (forall d k v,
     isPairList d = false -> add_pair d k v = Throw BadGet).
Proof.
  split; [|split].
  - intros kvs. apply (add_pairs_spec kvs []).
  - intros k v kvs. apply (add_pairs_spec kvs [(k, v)]).
  - intros d k v Hd. destruct d; try discriminate Hd; reflexivity.
Qed.

(** ** Objects of [folly::dynamic] *)

Lemma converted_keys (items : list (string * dynamic)) :
  map fst
    (map (fun kv : string * dynamic =>
            match kv with (key, val) => (key, initFromDynamic val) end) items)
  = map fst items.
Proof.
  induction items as [|[k v] items IH]; cbn [map fst]; [reflexivity|].
  now rewrite IH.
Qed.

Lemma pairs_of_keys_keys (values : list (string * QueryArgument))
  (keys : list string) :
  (forall key, In key keys -> In key (map fst values)) ->
  map fst (pairs_of_keys keys values) = keys.
Proof.
  induction keys as [|key keys IH]; intros Hin; cbn [pairs_of_keys map];
    [reflexivity|].
  destruct (lookup_In key values (Hin key (or_introl eq_refl))) as [v Hv].
  rewrite Hv. cbn [map fst]. f_equal. apply IH.
  intros k Hk. apply Hin. now right.
Qed.

Lemma pairs_of_keys_In (values : list (string * QueryArgument))
  (key : string) (v : QueryArgument) (keys : list string) :
  In key keys -> lookup key values = Some v ->
  In (key, v) (pairs_of_keys keys values).
Proof.
  induction keys as [|k keys IH]; cbn [In pairs_of_keys]; [contradiction|].
  intros [-> | H] Hv.
  - rewrite Hv. now left.
  - destruct (lookup k values); [right|]; now apply IH.
Qed.

Lemma pairs_of_keys_ext (values values' : list (string * QueryArgument))
  (keys : list string) :
  (forall key, lookup key values = lookup key values') ->
  pairs_of_keys keys values = pairs_of_keys keys values'.
Proof.
  intros H. induction keys as [|key keys IH]; cbn [pairs_of_keys];
    [reflexivity|].
  now rewrite H, IH.
Qed.

(** X17.  From an object, [initFromDynamic] makes a list of pairs whose
    keys are the keys of the object in ascending order; when no key stands
    twice, every entry of the object is there with its value converted. *)
Theorem X17_object_keys_sorted (items : list (string * dynamic)) :
  exists pairs,
    initFromDynamic (DObject items) = ArgPairs pairs /\
    Sorted (fun a b => String.leb a b = true) (map fst pairs) /\
    Permutation (map fst pairs) (map fst items) /\
    (NoDup (map fst items) ->
     forall key val,
       In (key, val) items -> In (key, initFromDynamic val) pairs).
Proof.
  exists (pairs_of_keys (sort_keys (map fst items))
            (map (fun kv : string * dynamic =>
                    match kv with (key, val) => (key, initFromDynamic val) end)
               items)).
  split; [reflexivity|].
  assert (Hkeys : forall values,
            map fst values = map fst items ->
            map fst (pairs_of_keys (sort_keys (map fst items)) values)
            = sort_keys (map fst items)).
  { intros values Hv. apply pairs_of_keys_keys. intros key Hk. rewrite Hv.
    apply (Permutation_in _ (sort_keys_perm _) Hk). }
  rewrite (Hkeys _ (converted_keys items)).
  split; [apply sort_keys_sorted|]. split; [apply sort_keys_perm|].
  intros Hnd key val Hin. apply pairs_of_keys_In.
  - apply (Permutation_in _ (Permutation_sym (sort_keys_perm _))).
    apply (in_map fst) in Hin. exact Hin.
  - apply lookup_NoDup; [now rewrite converted_keys|].
    apply (in_map (fun kv : string * dynamic =>
                     match kv with (k, v) => (k, initFromDynamic v) end))
      in Hin. exact Hin.
Qed.

(** X18.  The order in which an object hands out its entries makes no
    difference: two lists of the same entries, with no key twice, give the
    same [QueryArgument]. *)
Theorem X18_object_order_irrelevant (items items' : list (string * dynamic)) :
  NoDup (map fst items) ->
  Permutation items items' ->
  initFromDynamic (DObject items) = initFromDynamic (DObject items').
Proof.
  intros Hnd Hperm. cbn [initFromDynamic]. f_equal.
  rewrite (sort_keys_permutation _ _ (Permutation_map fst Hperm)).
  apply pairs_of_keys_ext. intros key. apply lookup_permutation.
  - now apply Permutation_map.
  - now rewrite converted_keys.
Qed.

(** ** Where the parse errors point *)

Lemma appendValue_located (q : Query) (s : string) (idx : nat)
  (type : ascii) (d : QueryArgument) (conn : option MYSQL) (e : exception) :
  appendValue q s idx type d conn = Throw e -> located q idx idx e.
Proof.
  destruct (accepts type d) eqn:Ha.
  - rewrite appendValue_accepts by exact Ha. discriminate.
  - rewrite appendValue_refuses by exact Ha. intros H. injection H as <-.
    cbn. split; [reflexivity | lia].
Qed.

Lemma asString_located (q : Query) (idx : nat) (d : QueryArgument)
  (e : exception) :
  asString d = Throw e -> located q idx idx e.
Proof. destruct d; cbn; intros H; inversion H; exact I. Qed.

Lemma appendColumnTableName_located (q : Query) (s : string) (idx : nat)
  (d : QueryArgument) (e : exception) :
  appendColumnTableName s d = Throw e -> located q idx idx e.
Proof.
  destruct (isString d) eqn:Hd.
  - destruct d; try discriminate Hd.
    rewrite appendColumnTableName_string. discriminate.
  - rewrite appendColumnTableName_other by exact Hd.
    destruct (asString d) eqn:Hs; [discriminate|]. cbn [bind].
    intros H. injection H as <-. now apply asString_located with d.
Qed.

Lemma appendComment_located (q : Query) (s : string) (idx : nat)
  (d : QueryArgument) (e : exception) :
  appendComment s d = Throw e -> located q idx idx e.
Proof.
  unfold appendComment. destruct (asString d) eqn:Hs; [discriminate|].
  cbn [bind]. intros H. injection H as <-. now apply asString_located with d.
Qed.

Lemma getList_located (q : Query) (idx : nat) (d : QueryArgument)
  (e : exception) :
  getList d = Throw e -> located q idx idx e.
Proof. destruct d; cbn; intros H; inversion H; exact I. Qed.

Lemma appendValueClauses_loop_located (q : Query) (idx : nat) (sep : string)
  (conn : option MYSQL) (pairs : list ArgPair) (e : exception) :
  forall ret first_param,
    appendValueClauses_loop q idx sep conn pairs ret first_param = Throw e ->
    located q idx idx e.
Proof.
  induction pairs as [|[key value] pairs IH]; intros ret first;
    cbn [appendValueClauses_loop fst snd]; [discriminate|].
  rewrite appendColumnTableName_string. cbn [bind].
  destruct (isNull value && negb (Ascii.eqb (first_char sep) ",")).
  - cbn [bind]. apply IH.
  - destruct (appendValue q _ idx "v" value conn) eqn:Hv; cbn [bind].
    + apply IH.
    + intros H. injection H as <-. now apply appendValue_located in Hv.
Qed.

Lemma appendValueClauses_located (q : Query) (ret : string) (idx : nat)
  (sep : string) (param : QueryArgument) (conn : option MYSQL)
  (e : exception) :
  appendValueClauses q ret idx sep param conn = Throw e ->
  located q idx idx e.
Proof.
  unfold appendValueClauses.
  destruct param; cbn [isPairList negb getPairs bind];
    try (intros H; injection H as <-; cbn; split; [reflexivity | lia]).
  apply appendValueClauses_loop_located.
Qed.

Lemma render_L_list_located (q : Query) (idx : nat) (conn : option MYSQL)
  (type : ascii) (vals : list QueryArgument) (e : exception) :
  forall ret first_param,
    render_L_list q idx conn type vals ret first_param = Throw e ->
    located q idx idx e.
Proof.
  induction vals as [|val vals IH]; intros ret first;
    cbn [render_L_list]; [discriminate|].
  destruct (Ascii.eqb type "C").
  - destruct (appendColumnTableName _ val) eqn:Hv; cbn [bind].
    + apply IH.
    + intros H. injection H as <-.
      now apply appendColumnTableName_located with (q := q) (idx := idx)
        in Hv.
  - destruct (appendValue q _ idx type val conn) eqn:Hv; cbn [bind].
    + apply IH.
    + intros H. injection H as <-. now apply appendValue_located in Hv.
Qed.

Lemma render_V_cols_located (q : Query) (idx : nat) (conn : option MYSQL)
  (first_row : bool) (cols : list QueryArgument) (e : exception) :
  forall ret col_idx row_len first_in_row,
    render_V_cols q idx conn first_row cols ret col_idx row_len first_in_row
    = Throw e ->
    located q idx idx e.
Proof.
  induction cols as [|col cols IH]; intros ret col_idx row_len first;
    cbn [render_V_cols]; [discriminate|].
  destruct (appendValue q _ idx "v" col conn) eqn:Hv; cbn [bind].
  - apply IH.
  - intros H. injection H as <-. now apply appendValue_located in Hv.
Qed.

Lemma render_V_rows_located (q : Query) (idx : nat) (conn : option MYSQL)
  (rows : list QueryArgument) (e : exception) :
  forall ret row_len first_row,
    render_V_rows q idx conn rows ret row_len first_row = Throw e ->
    located q idx idx e.
Proof.
  induction rows as [|row rows IH]; intros ret row_len first_row;
    cbn [render_V_rows]; [discriminate|].
  destruct (getList row) as [cols|] eqn:Hcols; cbn [bind].
  - destruct (render_V_cols q idx conn first_row cols _ 0 row_len true)
      as [[[r col_idx] row_len']|] eqn:Hc; cbn [bind].
    + destruct first_row; [apply IH|].
      destruct (negb (Nat.eqb col_idx row_len')); [|apply IH].
      intros H. injection H as <-. cbn. split; [reflexivity | lia].
    + intros H. injection H as <-. now apply render_V_cols_located in Hc.
  - intros H. injection H as <-. now apply getList_located with row.
Qed.

(** The exceptions of the calls that the branches of the loop body have
    left in the context. *)
Ltac located_calls q idx :=
  match goal with
  | E : appendValue _ _ _ _ _ _ = Throw _ |- _ =>
      apply appendValue_located in E
  | E : appendColumnTableName _ _ = Throw _ |- _ =>
      apply appendColumnTableName_located with (q := q) (idx := idx) in E
  | E : appendComment _ _ = Throw _ |- _ =>
      apply appendComment_located with (q := q) (idx := idx) in E
  | E : asString _ = Throw _ |- _ =>
      apply asString_located with (q := q) (idx := idx) in E
  | E : getList _ = Throw _ |- _ =>
      apply getList_located with (q := q) (idx := idx) in E
  | E : appendValueClauses _ _ _ _ _ _ = Throw _ |- _ =>
      apply appendValueClauses_located in E
  | E : render_L_list _ _ _ _ _ _ _ = Throw _ |- _ =>
      apply render_L_list_located in E
  | E : render_V_rows _ _ _ _ _ _ _ = Throw _ |- _ =>
      apply render_V_rows_located in E
  end.

Ltac throw_branches H :=
  repeat match type of H with
    | Ok _ = Throw _ => discriminate H
    | context [if ?b then _ else _] => destruct b eqn:?
    | context [bind ?m _] => destruct m eqn:?; cbn [bind] in H
    | context [match ?r with EmptyString => _ | String _ _ => _ end] =>
        destruct r
    end.

Ltac throw_calls :=
  repeat match goal with
    | E : Ok _ = Throw _ |- _ => discriminate E
    | E : Throw _ = Throw _ |- _ => injection E as E; subst
    | E : parseError _ _ _ = Throw _ |- _ => unfold parseError in E
    | E : bind ?m _ = Throw _ |- _ => destruct m eqn:?; cbn [bind] in E
    end.

(** The walk over what is left, by the hypothesis of the induction. *)
Ltac recurse Hrec H :=
  eapply Hrec; cycle 3; [exact H | ..]; cbn [String.length] in *; lia.

Lemma located_wider (q : Query) (lo hi lo' hi' : nat) (e : exception) :
  lo' <= lo -> hi <= hi' -> located q lo hi e -> located q lo' hi' e.
Proof.
  intros Hlo Hhi. destruct e; cbn; [|trivial|trivial].
  intros [Hs Ho]. split; [exact Hs | lia].
Qed.

Lemma render_loop_located (q : Query) (conn : option MYSQL) (n : nat) :
  forall rest, String.length rest <= n ->
  forall idx current_param after_percent ret e,
    render_loop q conn rest idx current_param after_percent ret = Throw e ->
    located q idx (idx + String.length rest) e.
Proof.
  induction n as [|n IH]; intros rest Hlen idx cur ap ret e H.
  - destruct rest; [discriminate H | simpl in Hlen; lia].
  - destruct rest as [|c rest]; [discriminate H|].
    cbn [String.length] in Hlen. cbn [render_loop] in H.
    assert (Hrec : forall rest' idx' cur' ap' ret',
              String.length rest' <= n ->
              idx <= idx' ->
              idx' + String.length rest' <= idx + S (String.length rest) ->
              render_loop q conn rest' idx' cur' ap' ret' = Throw e ->
              located q idx (idx + S (String.length rest)) e).
    { intros rest' idx' cur' ap' ret' Hl Hlo Hhi Hr.
      apply (located_wider q idx' (idx' + String.length rest'));
        [exact Hlo | exact Hhi | now apply (IH rest' Hl) in Hr]. }
    assert (Hhere : forall idx',
              idx <= idx' <= idx + S (String.length rest) ->
              located q idx' idx' e ->
              located q idx (idx + S (String.length rest)) e).
    { intros idx' Hi. apply located_wider; lia. }
    cbn [String.length].
    destruct ap; cbn [negb] in H.
    + destruct (Ascii.eqb c "%"); [recurse Hrec H|].
      destruct cur as [|param cur].
      { injection H as <-. cbn. split; [reflexivity | lia]. }
      throw_branches H; throw_calls;
        first [ match goal with
                | Hr : render_loop _ _ _ _ _ _ _ = Throw _ |- _ =>
                    recurse Hrec Hr
                end
              | apply (Hhere idx); [lia|];
                first [ located_calls q idx; assumption
                      | cbn; split; [reflexivity | lia] ]
              | apply (Hhere (S idx)); [cbn [String.length]; lia|];
                first [ located_calls q (S idx); assumption
                      | cbn; split; [reflexivity | lia] ] ].
    + destruct (negb (Ascii.eqb c "%")); recurse Hrec H.
Qed.

(** X19.  A parse error of [render] names the template of the statement
    and an offset that is at most the size of the template. *)
Theorem X19_parse_errors_located (q : Query) (conn : option MYSQL)
  (params : list QueryArgument) (s message : string) (offset : nat) :
  render_with q conn params = Throw (ParseError s offset message) ->
  s = query_text_ q /\ offset <= String.length (query_text_ q).
Proof.
  unfold render_with. destruct (unsafe_query_ q); [discriminate|].
  destruct (find_first_of (query_text_ q) dangerous) as [o|] eqn:Hd.
  - intros H. injection H as <- <- _. split; [reflexivity|].
    destruct (find_first_of_Some _ _ _ Hd) as [[c [Hc _]] _].
    clear Hd. revert o Hc.
    induction (query_text_ q) as [|x t IH]; intros o Hc; [discriminate Hc|].
    destruct o as [|o]; cbn [String.length]; [lia|].
    apply IH in Hc. lia.
  - destruct (render_loop q conn (query_text_ q) 0 params false "")
      as [w|e] eqn:Hw; cbn [bind].
    + destruct (render_loop_framed conn _ _ (le_n _) _ _ _ _ _ _ Hw)
        as (o & _ & Hidx & _).
      destruct (walk_after_percent w).
      * intros H. injection H as <- <- _. split; [reflexivity | lia].
      * destruct (walk_current_param w); [discriminate|].
        intros H. injection H as <- <- _. split; [reflexivity | lia].
    + intros H. injection H as ->.
      apply (render_loop_located q conn _ _ (le_n _)) in Hw.
      cbn in Hw. destruct Hw as [Hs Ho]. split; [exact Hs | lia].
Qed.

End Properties.

(** * Examples

    The theorems above at concrete statements, in the instance
    [sample_ext], [sample_names]. *)

(** An unsafe statement with a quote in it renders to its text; the template
    [a;b] is refused at offset 1. *)
Lemma C2_unsafe_verbatim_dangerous_rejected_witness :
  (forall conn params,
     sample_render_with (mkQuery "it's" true []) conn params = Ok "it's") /\
  (exists offset,
     offset <= 1 /\
     (exists c0, get offset "a;b" = Some c0 /\
                 (c0 = ";" \/ c0 = "'" \/ c0 = dquote \/ c0 = "`")%char) /\
     (forall i ci, i < offset -> get i "a;b" = Some ci ->
                   ~ (ci = ";" \/ ci = "'" \/ ci = dquote \/ ci = "`")%char) /\
     forall conn params,
       sample_render_with (Query_new "a;b" []) conn params
       = Throw (DangerousCharacter "a;b" offset)).
Proof.
  split.
  - apply (proj1 (@C2_unsafe_verbatim_dangerous_rejected sample_ext
                    sample_names (mkQuery "it's" true []))).
    reflexivity.
  - apply (proj2 (@C2_unsafe_verbatim_dangerous_rejected sample_ext
                    sample_names (Query_new "a;b" [])) eq_refl 1 ";"%char).
    + reflexivity.
    + left. reflexivity.
Defined.

(** A row with a Bool in it is refused, with the message for a value of the
    wrong type. *)
Lemma C3_bool_element_refused :
  sample_render_with (Query_new "%V" []) None
    [ArgList [ArgList [ArgBool true]]]
  = Throw (SpecifierTypeMismatch "%V" 1 "v" "bool") /\
  ~ (exists out,
       sample_render_with (Query_new "%V" []) None
         [ArgList [ArgList [ArgBool true]]] = Ok out).
Proof.
  split; [reflexivity|]. intros [out H]. discriminate H.
Qed.

(** Rows of a Str, a Null, an Int and a Double; rows of unequal width. *)
Lemma C3_rows_of_values_witness :
  sample_emits sample_statement (Some tt) "V"
    (ArgList [ArgList [ArgString "it's"; ArgNull];
              ArgList [ArgInt 7; sample_double 2]])
    ("(" ++ String dquote ("it" ++ String backslash "'s"
                             ++ String dquote ", NULL), (7, 2)")) /\
  sample_rejects sample_statement (Some tt) "V"
    (ArgList [ArgList [ArgInt 1; ArgInt 2]; ArgList [ArgInt 3]])
    (RowLengthMismatch "SELECT 1").
Proof.
  split.
  - exact (proj1 (@C3_rows_of_values sample_ext sample_names sample_statement
                    (Some tt)
                    [[ArgString "it's"; ArgNull]; [ArgInt 7; sample_double 2]]
                    eq_refl) eq_refl).
  - exact (proj1 (proj2 (@C3_rows_of_values sample_ext sample_names
                           sample_statement (Some tt)
                           [[ArgInt 1; ArgInt 2]; [ArgInt 3]] eq_refl))
             eq_refl).
Defined.

(** An Int under [%T] is not refused: its digits are emitted. *)
Lemma C4_int_not_rejected :
  sample_render_with (Query_new "%T" []) None [ArgInt 5] = Ok "5" /\
  ~ (exists e,
       sample_render_with (Query_new "%T" []) None [ArgInt 5] = Throw e).
Proof.
  split; [reflexivity|]. intros [e H]. discriminate H.
Qed.

Lemma C4_identifier_codes_witness :
  sample_emits sample_statement None "C" (ArgString "a`b") "`a``b`" /\
  sample_emits sample_statement None "C" (ArgInt 5) "5" /\
  sample_rejects sample_statement None "C" ArgNull
    (fun _ => UnsupportedConversion).
Proof.
  pose proof (@C4_identifier_codes sample_ext sample_names sample_statement
                None "C"%char (or_intror eq_refl)) as H.
  split; [exact (proj1 H "a`b")|].
  split; [exact (proj1 (proj2 (proj2 H)) 5%Z)|].
  exact (proj1 (proj2 (proj2 (proj2 (proj2 H)))) ArgNull eq_refl).
Defined.

Lemma C5_set_and_where_clauses_witness :
  sample_emits sample_statement None "U"
    (ArgPairs [("a", ArgInt 1); ("b", ArgNull)]) "`a` = 1, `b` = NULL" /\
  sample_emits sample_statement None "W"
    (ArgPairs [("a", ArgInt 1); ("b", ArgNull)]) "`a` = 1 AND `b` IS NULL".
Proof.
  pose proof (@C5_set_and_where_clauses sample_ext sample_names
                sample_statement None [("a", ArgInt 1); ("b", ArgNull)]
                eq_refl) as H.
  split; [exact (proj1 H) | exact (proj1 (proj2 H))].
Defined.

(** A comment text that closes and opens comments. *)
Lemma C6_comment_never_closed_early_witness :
  sample_emits sample_statement None "K" (ArgString "a*/b/*c")
    "/*a * / b / * c*/" /\
  occurs "*/" "a * / b / * c" = false.
Proof.
  pose proof (@C6_comment_never_closed_early sample_ext sample_names
                sample_statement None (ArgString "a*/b/*c") "a*/b/*c"
                eq_refl) as H.
  split; [exact (proj1 H) | exact (proj2 (proj2 (proj2 H)))].
Defined.

(** A first statement that renders to nothing gets no [;] after it. *)
Lemma C7_empty_first_statement :
  sample_render (Query_new "" []) None = Ok "" /\
  sample_render (Query_new "a" []) None = Ok "a" /\
  sample_renderQuery
    (mkMultiQuery [Query_new "" []; Query_new "a" []] "") None
  = Ok ("a", mkMultiQuery [Query_new "" []; Query_new "a" []] "a") /\
  "a" <> "" ++ ";" ++ "a".
Proof.
  repeat split. intros H. discriminate H.
Qed.

Lemma C7_batch_rendering_witness :
  sample_renderQuery
    (mkMultiQuery [Query_new "a" []; Query_new "%d" [ArgInt 2];
                   Query_new "" []] "") None
  = Ok ("a;2;",
        mkMultiQuery [Query_new "a" []; Query_new "%d" [ArgInt 2];
                      Query_new "" []] "a;2;") /\
  sample_renderQuery (mkMultiQuery [mkQuery "it's;" true []] "") None
  = Ok ("it's;", mkMultiQuery [mkQuery "it's;" true []] "").
Proof.
  pose proof (@C7_batch_rendering sample_ext sample_names None) as H.
  split.
  - apply (proj1 H (mkMultiQuery [Query_new "a" []; Query_new "%d" [ArgInt 2];
                                  Query_new "" []] "") ["a"; "2"; ""]).
    + simpl. lia.
    + repeat constructor.
    + discriminate.
  - apply (proj2 H (mkMultiQuery [mkQuery "it's;" true []] "")
             (mkQuery "it's;" true [])); reflexivity.
Defined.

(** A sub-statement under [%Q] is not rendered: the conversion throws; so
    it does for a Null. *)
Lemma C8_substatement_refused :
  sample_render_with (Query_new "%Q" []) None
    [ArgQuery (mkQuery "SELECT 1" true [])]
  = Throw UnsupportedConversion /\
  ~ (exists out,
       sample_render_with (Query_new "%Q" []) None
         [ArgQuery (mkQuery "SELECT 1" true [])] = Ok out) /\
  sample_render_with (Query_new "%Q" []) None [ArgNull]
  = Throw UnsupportedConversion.
Proof.
  split; [reflexivity|]. split; [|reflexivity].
  intros [out H]. discriminate H.
Qed.

Lemma C8_raw_code_witness :
  sample_rejects sample_statement None "Q"
    (ArgQuery (mkQuery "SELECT 1" true [])) (fun _ => UnsupportedConversion) /\
  sample_render_with (Query_new "%Q" []) None [ArgList [ArgInt 1]]
  = Throw UnsupportedConversion.
Proof.
  pose proof (@C8_raw_code sample_ext sample_names sample_statement None)
    as H.
  split.
  - exact (proj1 (proj2 (proj2 (proj2 (proj2 H))))
             (ArgQuery (mkQuery "SELECT 1" true [])) eq_refl).
  - exact (proj2 (proj2 (proj2 (proj2 (proj2 H)))) [] (ArgList [ArgInt 1])
             eq_refl).
Defined.

(** A template that ends in a [%]: the walk comes to its end with an
    argument left, and the render reports the unfinished code, not the
    argument. *)
Lemma C9_unfinished_code_comes_first :
  @render_loop sample_ext sample_names (Query_new "%d%" []) None "%d%" 0
    [ArgInt 1; ArgInt 2] false ""
  = Ok (mkWalk "1" [ArgInt 2] true 3) /\
  sample_render_with (Query_new "%d%" []) None [ArgInt 1; ArgInt 2]
  = Throw (UnterminatedSpecifier "%d%" 3) /\
  sample_render_with (Query_new "%d%" []) None [ArgInt 1; ArgInt 2]
  <> Throw (TooManyParameters "%d%").
Proof.
  split; [reflexivity|]. split; [reflexivity|].
  intros H. discriminate H.
Qed.

Lemma C9_argument_count_witness :
  @render_loop sample_ext sample_names (Query_new "%d %d" []) None "d" 4 []
    true "1 "
  = Throw (TooFewParameters "%d %d" 4) /\
  sample_render_with (Query_new "%d %d" []) None
    ([ArgInt 1; ArgInt 2] ++ [ArgInt 3])
  = Throw (TooManyParameters "%d %d") /\
  (exists idx,
     sample_render_with (Query_new "%d %d" []) None [ArgInt 1]
     = Throw (TooFewParameters "%d %d" idx)) /\
  sample_render_with (Query_new "%d %d" []) None
    [ArgInt 1; ArgInt 2; ArgInt 3]
  = Throw (TooManyParameters "%d %d").
Proof.
  pose proof (@C9_argument_count sample_ext sample_names
                (Query_new "%d %d" []) None eq_refl) as H.
  split.
  - apply (proj1 H "d"%char "" 4 "1 "). discriminate.
  - split; [|split].
    + apply (proj1 (proj2 (proj2 (proj2 H))) [ArgInt 1; ArgInt 2] [ArgInt 3]
               "1 2").
      * reflexivity.
      * discriminate.
    + apply (proj1 (proj2 (proj2 (proj2 (proj2 H)))) [ArgInt 1] [ArgInt 2]
               "1 2").
      * reflexivity.
      * discriminate.
    + apply (proj1 (proj2 (proj2 H)) [ArgInt 1; ArgInt 2; ArgInt 3]
               (mkWalk "1 2" [ArgInt 3] false 5)).
      * reflexivity.
      * reflexivity.
      * reflexivity.
      * discriminate.
Defined.

Lemma C10_exhaustion_before_letter_witness :
  @render_loop sample_ext sample_names (Query_new "%Z" []) None "Z" 1 [] true
    ""
  = Throw (TooFewParameters "%Z" 1) /\
  TooFewParameters "%Z" 1 <> UnknownSpecifier "%Z" 1.
Proof.
  apply (proj1 (@C10_exhaustion_before_letter sample_ext sample_names
                  (Query_new "%Z" []) None) "Z"%char "" 1 "").
  discriminate.
Defined.

(** ** More examples *)

Lemma X1_scalar_letter_decides_witness :
  sample_emits sample_statement None "d" (ArgInt 3) "3" /\
  sample_rejects sample_statement None "d" (ArgString "x")
    (fun idx => SpecifierTypeMismatch "SELECT 1" idx "d" "string").
Proof.
  split.
  - exact (proj1 (@X1_scalar_letter_decides sample_ext sample_names
                    sample_statement None "d"%char (ArgInt 3)
                    (or_introl eq_refl)) eq_refl).
  - exact (proj2 (@X1_scalar_letter_decides sample_ext sample_names
                    sample_statement None "d"%char (ArgString "x")
                    (or_introl eq_refl)) eq_refl).
Defined.

Lemma X2_equals_code_witness :
  sample_emits2 sample_statement None "=" "d" ArgNull " IS NULL" /\
  sample_emits2 sample_statement None "=" "d" (ArgInt 5) " = 5" /\
  sample_rejects2 sample_statement None "=" "d" (ArgString "x")
    (fun idx => SpecifierTypeMismatch "SELECT 1" idx "d" "string") /\
  sample_rejects2 sample_statement None "=" "c" (ArgInt 5)
    (fun idx => ParseError "SELECT 1" idx "expected %=d, %=c, or %=s").
Proof.
  split; [|split; [|split]].
  - exact (proj1 (proj1 (@X2_equals_code sample_ext sample_names
                           sample_statement None "d"%char ArgNull)
                    (or_introl eq_refl)) eq_refl).
  - exact (proj1 (proj2 (proj1 (@X2_equals_code sample_ext sample_names
                                  sample_statement None "d"%char (ArgInt 5))
                           (or_introl eq_refl))) eq_refl eq_refl).
  - exact (proj2 (proj2 (proj1 (@X2_equals_code sample_ext sample_names
                                  sample_statement None "d"%char
                                  (ArgString "x"))
                           (or_introl eq_refl))) eq_refl).
  - apply (proj1 (proj2 (@X2_equals_code sample_ext sample_names
                           sample_statement None "c"%char (ArgInt 5))));
      discriminate.
Defined.

Lemma X3_clause_codes_witness :
  sample_emits2 sample_statement None "L" "O"
    (ArgPairs [("a", ArgInt 1); ("b", ArgNull)])
    "(`a` = 1 OR `b` IS NULL)" /\
  sample_rejects sample_statement None "W" (ArgInt 1)
    (fun idx =>
       ParseError "SELECT 1" idx "object expected for %Lx but received int64").
Proof.
  pose proof (@X3_clause_codes sample_ext sample_names sample_statement None)
    as H.
  split.
  - exact (proj1 (proj1 H [("a", ArgInt 1); ("b", ArgNull)] eq_refl)).
  - exact (proj2 (proj2 (proj2 (proj2 H (ArgInt 1) eq_refl)))).
Defined.

Lemma X4_list_code_witness :
  sample_emits2 sample_statement None "L" "d"
    (ArgList [ArgInt 1; ArgNull; ArgInt 3]) "1, NULL, 3" /\
  sample_rejects2 sample_statement None "L" "d" (ArgInt 1)
    (fun idx => ParseError "SELECT 1" idx "expected array for %L formatter").
Proof.
  assert (HO : "d"%char <> "O"%char) by discriminate.
  assert (HA : "d"%char <> "A"%char) by discriminate.
  assert (HC : "d"%char <> "C"%char) by discriminate.
  pose proof (@X4_list_code sample_ext sample_names sample_statement None
                "d"%char HO HA) as H.
  split.
  - exact (proj1 H [ArgInt 1; ArgNull; ArgInt 3] HC eq_refl).
  - exact (proj1 (proj2 (proj2 H)) (ArgInt 1) eq_refl).
Defined.

Lemma X5_rows_refused_witness :
  sample_rejects sample_statement None "V" (ArgInt 1) (fun _ => BadGet) /\
  sample_rejects sample_statement None "V" (ArgList [ArgInt 1])
    (fun _ => BadGet) /\
  sample_rejects sample_statement None "V"
    (ArgList [ArgList [ArgInt 1; ArgBool true]])
    (fun idx => SpecifierTypeMismatch "SELECT 1" idx "v" "bool").
Proof.
  pose proof (@X5_rows_refused sample_ext sample_names sample_statement None)
    as H.
  split; [|split].
  - exact (proj1 (proj2 H) (ArgInt 1) eq_refl eq_refl).
  - exact (proj1 (proj2 (proj2 H)) (ArgInt 1) [] eq_refl).
  - exact (proj2 (proj2 (proj2 H)) [ArgInt 1] [] true [] eq_refl).
Defined.

Lemma X6_unknown_code_witness :
  sample_rejects sample_statement None "Z" ArgNull
    (UnknownSpecifier "SELECT 1").
Proof.
  exact (@X6_unknown_code sample_ext sample_names sample_statement None
           "Z"%char ArgNull eq_refl).
Defined.

Lemma X7_literal_template_witness :
  sample_render_with sample_statement None [] = Ok "SELECT 1" /\
  (forall param params,
     sample_render_with sample_statement None (param :: params)
     = Throw (TooManyParameters "SELECT 1")).
Proof.
  exact (@X7_literal_template sample_ext sample_names sample_statement None
           eq_refl eq_refl eq_refl).
Defined.

Lemma X8_unfinished_code_witness :
  sample_render_with (Query_new "a%d%" []) None [ArgInt 1; ArgInt 2]
  = Throw (UnterminatedSpecifier "a%d%" 4).
Proof.
  exact (@X8_unfinished_code sample_ext sample_names (Query_new "a%d%" [])
           (Query_new "a%d" []) None [ArgInt 1] [ArgInt 2] "a1"
           eq_refl eq_refl eq_refl eq_refl).
Defined.

Lemma X9_arguments_match_codes_witness :
  List.length [ArgInt 1; ArgString "x"; @ArgList sample_ext [ArgString "c"]]
  = count_codes false "%d%% %=s %LC".
Proof.
  exact (@X9_arguments_match_codes sample_ext sample_names
           (Query_new "%d%% %=s %LC" []) None
           [ArgInt 1; ArgString "x"; ArgList [ArgString "c"]]
           ("1%  = " ++ String dquote ("x" ++ String dquote " `c`"))
           eq_refl eq_refl).
Defined.

Lemma X10_append_composes_witness :
  sample_render
    (Query_append (Query_new "a = %d" [ArgInt 1])
       (Query_new " AND b = %s" [ArgString "x"])) None
  = Ok ("a = 1" ++ " AND b = " ++ String dquote ("x" ++ String dquote "")) /\
  sample_render
    (Query_append (mkQuery "it's" true []) (Query_new " %d" [ArgInt 1])) None
  = Ok ("it's" ++ " %d").
Proof.
  split.
  - exact (proj1 (@X10_append_composes sample_ext sample_names
                    (Query_new "a = %d" [ArgInt 1])
                    (Query_new " AND b = %s" [ArgString "x"]) None)
             "a = 1" (" AND b = " ++ String dquote ("x" ++ String dquote ""))
             eq_refl eq_refl eq_refl eq_refl).
  - exact (proj2 (@X10_append_composes sample_ext sample_names
                    (mkQuery "it's" true []) (Query_new " %d" [ArgInt 1])
                    None) eq_refl).
Defined.

Lemma X11_batch_exact_witness :
  sample_renderMultiQuery None
    [Query_new "" []; Query_new "a" []; Query_new "" []; Query_new "b" []]
  = Ok "a;;b".
Proof.
  apply (@X11_batch_exact sample_ext sample_names None
           [Query_new "" []; Query_new "a" []; Query_new "" [];
            Query_new "b" []] [""; "a"; ""; "b"]).
  repeat constructor.
Defined.

Lemma X12_batch_first_error_witness :
  sample_renderMultiQuery None
    [Query_new "a" []; Query_new "%d" []; Query_new "b" []]
  = Throw (TooFewParameters "%d" 1).
Proof.
  apply (@X12_batch_first_error sample_ext sample_names None
           [Query_new "a" []] ["a"] (Query_new "%d" []) [Query_new "b" []]).
  - repeat constructor.
  - reflexivity.
Defined.

Lemma X13_renderQuery_is_renderMultiQuery_witness :
  sample_renderQuery (mkMultiQuery [mkQuery "x;" true []] "old") None
  = Ok ("x;", mkMultiQuery [mkQuery "x;" true []] "old") /\
  mkMultiQuery [@Query_new sample_ext "a" []] "a"
  = mkMultiQuery
      (queries_ (mkMultiQuery [@Query_new sample_ext "a" []] "old")) "a".
Proof.
  split.
  - exact (proj1 (proj2 (@X13_renderQuery_is_renderMultiQuery sample_ext
                           sample_names
                           (mkMultiQuery [mkQuery "x;" true []] "old") None))
             (mkQuery "x;" true []) eq_refl eq_refl).
  - apply (proj2 (proj2 (@X13_renderQuery_is_renderMultiQuery sample_ext
                           sample_names
                           (mkMultiQuery [Query_new "a" []] "old") None))
             "a" (mkMultiQuery [Query_new "a" []] "a") eq_refl).
    intros query H. injection H as <-. reflexivity.
Defined.

Lemma X14_identifier_quoting_witness : "a`b" = "a`b".
Proof.
  exact (proj2 (@X14_identifier_quoting sample_ext "SELECT ") "a`b" "a`b"
           eq_refl).
Defined.

Lemma X15_comment_text_witness :
  (exists body,
     @appendComment sample_ext "/*" (ArgString "a/*b*/") = Ok ("/*" ++ body)
     /\ occurs "/*" body = false /\ occurs "*/" body = false) /\
  @appendComment sample_ext "/*" ArgNull = Throw UnsupportedConversion.
Proof.
  split.
  - exact (proj1 (@X15_comment_text sample_ext "/*" (ArgString "a/*b*/"))
             "a/*b*/" eq_refl).
  - exact (proj2 (@X15_comment_text sample_ext "/*" ArgNull) eq_refl).
Defined.

Lemma X16_pair_builder_witness :
  @add_pair sample_ext ArgNull "a" (ArgInt 1) = Throw BadGet.
Proof.
  exact (proj2 (proj2 (@X16_pair_builder sample_ext)) ArgNull "a" (ArgInt 1)
           eq_refl).
Defined.

Lemma sample_object_NoDup : NoDup (map fst sample_object).
Proof.
  repeat constructor; cbn; intuition discriminate.
Defined.

Lemma X17_object_keys_sorted_witness :
  exists pairs,
    initFromDynamic (DObject sample_object) = ArgPairs pairs /\
    In ("b", ArgInt 2) pairs.
Proof.
  destruct (@X17_object_keys_sorted sample_ext sample_object)
    as (pairs & Hinit & _ & _ & Hin).
  exists pairs. split; [exact Hinit|].
  apply (Hin sample_object_NoDup "b" (DInt 2)). now left.
Defined.

Lemma X18_object_order_irrelevant_witness :
  initFromDynamic (DObject sample_object)
  = initFromDynamic (DObject [("a", DNull); ("b", @DInt sample_ext 2)]).
Proof.
  apply (@X18_object_order_irrelevant sample_ext).
  - exact sample_object_NoDup.
  - apply perm_swap.
Defined.

Lemma X19_parse_errors_located_witness :
  "%d %d" = query_text_ (@Query_new sample_ext "%d %d" []) /\
  4 <= String.length (query_text_ (@Query_new sample_ext "%d %d" [])).
Proof.
  exact (@X19_parse_errors_located sample_ext sample_names
           (Query_new "%d %d" []) None [ArgInt 1] "%d %d"
           "too few parameters for query" 4 eq_refl).
Defined.
